(** * cursorruler: content normalizer, file selection, aggregation, merge

    A shallow embedding of [cursorruler.py].  Python strings are lists of
    Unicode code points; the scanner of [process_file_content] is kept in
    its index-based form (a loop state with the index [i], the two flags,
    the string delimiter and the output buffer). *)

From Stdlib Require Import NArith Ascii String.
From stdpp Require Import base tactics option list relations sorting countable gmap.

Local Open Scope nat_scope.

(** ** Text *)

(** A Python [str] character is a code point. *)
Abbreviation char := N (only parsing).
Abbreviation text := (list N) (only parsing).

(** Code points of an ASCII literal. *)
Definition codes (s : string) : text := N_of_ascii <$> list_ascii_of_string s.
Global Arguments codes : simpl never.

Definition ch_newline : char := 10%N.
Definition ch_space : char := 32%N.
Definition ch_dquote : char := 34%N.
Definition ch_squote : char := 39%N.
Definition ch_star : char := 42%N.
Definition ch_slash : char := 47%N.
Definition ch_backslash : char := 92%N.
Definition ch_backtick : char := 96%N.

(** [str.isspace] on one character, which is also the set of characters
    that [str.strip()] removes: the ASCII table of CPython for code points
    below 128 and the Unicode white-space property above. *)
Definition isspace (c : char) : bool :=
  ((9 <=? c) && (c <=? 13))%N || ((28 <=? c) && (c <=? 32))%N
  || (c =? 133)%N || (c =? 160)%N || (c =? 5760)%N
  || ((8192 <=? c) && (c <=? 8202))%N
  || (c =? 8232)%N || (c =? 8233)%N || (c =? 8239)%N
  || (c =? 8287)%N || (c =? 12288)%N.

Fixpoint lstrip (s : text) : text :=
  match s with
  | c :: s' => if isspace c then lstrip s' else s
  | [] => []
  end.

Definition rstrip (s : text) : text := reverse (lstrip (reverse s)).

(** [s.strip()] *)
Definition strip (s : text) : text := rstrip (lstrip s).

(** The membership test of [content[i]] in the list of the three quote
    characters: double quote, single quote, backtick. *)
Definition is_quote (c : char) : bool :=
  bool_decide (c ∈ [ch_dquote; ch_squote; ch_backtick]).

(** ** Substring tests *)

(** [s.startswith(prefix)] *)
Fixpoint starts_with (s prefix : text) : bool :=
  match prefix, s with
  | [], _ => true
  | a :: prefix', b :: s' => bool_decide (a = b) && starts_with s' prefix'
  | _ :: _, [] => false
  end.

(** [pattern in s] *)
Fixpoint contains (s pattern : text) : bool :=
  starts_with s pattern
  || match s with
     | [] => false
     | _ :: s' => contains s' pattern
     end.

(** ** The scanner of [process_file_content] *)

(** The local variables of the [while] loop. *)
Record ScanState := mkScan {
  i : nat;
  in_multiline_comment : bool;
  in_string : bool;
  string_char : option char;
  buffer : text
}.

Definition init_state : ScanState := mkScan 0 false false None [].

(** [content[i : i + 2]] *)
Definition slice2 (content : text) (i : nat) : text := take 2 (drop i content).

(** The inner loop of the line-comment case, which increments [i] while
    [i < len(content)] and [content[i]] is not the newline; started at the
    head of [rest = content[i:]], the number of increments. *)
Fixpoint line_comment_length (rest : text) : nat :=
  match rest with
  | c :: rest' => if bool_decide (c = ch_newline) then 0 else S (line_comment_length rest')
  | [] => 0
  end.

(** [buffer and not buffer[-1].isspace()] *)
Definition ends_with_non_space (buffer : text) : bool :=
  match last buffer with
  | Some b => negb (isspace b)
  | None => false
  end.

(** One iteration of the [while] body, for a state with [i < len(content)]:
    there the read of [content[i]] succeeds, and the [None] case of the
    lookup stands for the [IndexError] that the loop condition excludes. *)
Definition scan_step (content : text) (st : ScanState) : ScanState :=
  let '(mkScan i mlc ins sc buf) := st in
  if bool_decide (slice2 content i = [ch_slash; ch_star]) && negb ins then
    mkScan (i + 2) true ins sc buf
  else if bool_decide (slice2 content i = [ch_star; ch_slash]) && mlc then
    mkScan (i + 2) false ins sc buf
  else if mlc then
    mkScan (i + 1) mlc ins sc buf
  else if bool_decide (slice2 content i = [ch_slash; ch_slash]) && negb ins then
    mkScan (i + line_comment_length (drop i content)) mlc ins sc buf
  else
    match content !! i with
    | None => st
    | Some c =>
      if is_quote c
         && (bool_decide (i = 0) || bool_decide (content !! (i - 1) ≠ Some ch_backslash))
      then
        if negb ins then mkScan (i + 1) mlc true (Some c) (buf ++ [c])
        else if bool_decide (Some c = sc) then mkScan (i + 1) mlc false sc (buf ++ [c])
        else mkScan (i + 1) mlc ins sc (buf ++ [c])
      else if isspace c && negb ins then
        if ends_with_non_space buf then mkScan (i + 1) mlc ins sc (buf ++ [ch_space])
        else mkScan (i + 1) mlc ins sc buf
      else mkScan (i + 1) mlc ins sc (buf ++ [c])
    end.

(** The [while i < len(content)] loop; [None] when the fuel runs out before
    the loop condition turns false. *)
Fixpoint scan_loop (fuel : nat) (content : text) (st : ScanState) : option ScanState :=
  if bool_decide (i st < length content) then
    match fuel with
    | 0 => None
    | S fuel' => scan_loop fuel' content (scan_step content st)
    end
  else Some st.

Definition scan (content : text) : option ScanState :=
  scan_loop (length content) content init_state.

(** The loop followed by the [return]: the buffer joined and stripped. *)
Definition normalize (content : text) : option text :=
  st ← scan content; Some (strip (buffer st)).

(** ** Paths *)

(** A [pathlib] path on a POSIX system: whether it has a root, and its
    components after the root. *)
Record Path := mkPath {
  is_absolute : bool;
  parts : list text
}.

Global Instance Path_eq_dec : EqDecision Path.
Proof. solve_decision. Defined.

Global Instance Path_countable : Countable Path.
Proof.
  refine (inj_countable' (λ p, (is_absolute p, parts p))
                         (λ '(a, ps), mkPath a ps) _).
  by intros [].
Defined.

(** [sep.join(items)] *)
Fixpoint join_with (sep : text) (items : list text) : text :=
  match items with
  | [] => []
  | [x] => x
  | x :: rest => x ++ sep ++ join_with sep rest
  end.

(** [str(path)] *)
Definition path_str (p : Path) : text :=
  match is_absolute p, parts p with
  | false, [] => codes "."
  | false, ps => join_with [ch_slash] ps
  | true, ps => ch_slash :: join_with [ch_slash] ps
  end.

(** [path.name]: the last component, empty when there is none. *)
Definition path_name (p : Path) : text := default [] (last (parts p)).

(** [s.rfind(c)], [None] standing for -1. *)
Fixpoint rfind (c : char) (s : text) : option nat :=
  match s with
  | [] => None
  | x :: s' =>
    match rfind c s' with
    | Some k => Some (S k)
    | None => if bool_decide (x = c) then Some 0 else None
    end
  end.

(** [path.suffix]: the name from its last dot on, when that dot is neither
    the first nor the last character of the name. *)
Definition suffix (p : Path) : text :=
  let name := path_name p in
  match rfind 46%N name with
  | Some k => if bool_decide (0 < k ∧ k < length name - 1) then drop k name else []
  | None => []
  end.

(** [s.lower()] on the letters A to Z.  No other character lowers to one of
    the letters of the three extensions tested below, so the membership
    test on [file_ext] is decided by this part of [str.lower]. *)
Definition lower_char (c : char) : char :=
  if ((65 <=? c) && (c <=? 90))%N then (c + 32)%N else c.

Definition lower (s : text) : text := lower_char <$> s.

(** ** [process_file_content] *)

Section ProcessFileContent.
(** [json.loads] followed by [json.dumps] with the compact separators,
    of the standard library; [None] when [json.loads] raises
    [JSONDecodeError]. *)
Variable json_compact : text → option text.

(** The result is the list of lines printed and the returned string;
    [None] only if the scanner loop ran out of fuel. *)
Definition process_file_content (file : Path) (content : text)
  : option (list text * text) :=
  let file_ext := lower (suffix file) in
  if bool_decide (file_ext ∈ [codes ".dart"; codes ".yaml"; codes ".json"]) then
    out ← normalize content; Some ([], out)
  else if bool_decide (file_ext = codes ".json") then
    match json_compact content with
    | Some out => Some ([], out)
    | None =>
      Some ([codes "Warning: Could not parse JSON file " ++ path_str file], content)
    end
  else Some ([], content).
End ProcessFileContent.

(** ** File selection in [main] *)

Definition EXCLUDED_DIRS : list text :=
  codes <$> [".git"; "node_modules"; ".vscode"; ".next"; ".pytest_cache"; "build";
             ".idea"; ".dart_tool"; "ios"; "android"; "web"; "macos"]%string.

Definition EXCLUDED_FILES : list text :=
  codes <$> [".cursorrules"; ".cursorrules-template"; "cursorruler.py"; ".d.ts";
             ".tool-versions"; ".lock"; ".env"; ".g.dart"; ".g.yaml"; ".g.json";
             ".freezed.dart"; ".arb"; "README.md"]%string.

Definition include_patterns : list text :=
  codes <$> ["**/*.dart"; "**/*.yaml"; "**/*.ts"; "**/*.tsx"; "**/*.json"; "**/*.js";
             "**/*.jsx"; "**/*.md"; "**/*.html"; "**/*.css"; "**/*.scss";
             "**/*.less"; "**/*.styl"]%string.

Definition exclude_patterns : list text :=
  codes <$> ["**/Makefile"; "**/*.md"; "**/*.txt"; ".vscode/**"; "**/node_modules/**";
             "**/.git/**"; "**/.cursorrules"; "**/.cursorrules-template"; "**/*.txt";
             "**/*.env"; "**/*.pem"; "**/*.pub"; "**/*.tfstate";
             "**/*.tfstate.backup"; "**/*.tfplan"; "**/*.tfplan.json"; "build/**";
             "**/build/**"; "ios"; "android"; "web"; "macos"]%string.

(** The components of a path with each [..] taken together with the
    component before it; at the root [..] stays at the root. *)
Definition normal_parts (ps : list text) : list text :=
  foldl (λ acc part, if bool_decide (part = codes "..") then removelast acc
                     else acc ++ [part])
        [] ps.

(** [Path(p).resolve()] in the working directory [cwd] (the components of
    an absolute path), on a file system without symbolic links: a relative
    path is joined to [cwd], and the [..] components are resolved; the
    result is absolute.  A [pathlib] path holds no single-dot component. *)
Definition resolve (cwd : list text) (p : Path) : Path :=
  mkPath true (normal_parts (if is_absolute p then parts p else cwd ++ parts p)).

(** Order of paths used by [sorted]: the component lists compared
    lexicographically, components by code point; the root is the first
    component of an absolute path. *)
Fixpoint text_compare (s t : text) : comparison :=
  match s, t with
  | [], [] => Eq
  | [], _ :: _ => Lt
  | _ :: _, [] => Gt
  | a :: s', b :: t' =>
    match N.compare a b with
    | Eq => text_compare s' t'
    | c => c
    end
  end.

Fixpoint parts_compare (p q : list text) : comparison :=
  match p, q with
  | [], [] => Eq
  | [], _ :: _ => Lt
  | _ :: _, [] => Gt
  | a :: p', b :: q' =>
    match text_compare a b with
    | Eq => parts_compare p' q'
    | c => c
    end
  end.

Definition sort_key (p : Path) : list text :=
  if is_absolute p then [ch_slash] :: parts p else parts p.

Definition path_le (p q : Path) : Prop :=
  parts_compare (sort_key p) (sort_key q) ≠ Gt.

Global Instance path_le_dec : RelDecision path_le.
Proof. intros p q. unfold path_le. apply _. Defined.

(** [sorted(files)] *)
Definition sorted (files : gset Path) : list Path :=
  merge_sort path_le (elements files).

(** [any(pattern in str(file) for pattern in patterns)] *)
Definition name_excluded (patterns : list text) (file : Path) : bool :=
  existsb (contains (path_str file)) patterns.

Section Selection.
(** The file system seen through [Path().glob(pattern)]: for each
    pattern, the matches as component lists relative to the working
    directory. *)
Variable glob_parts : text → list (list text).
Variables includes excludes : list text.
Variables script_path output_path : Path.

(** [Path().glob(pattern)] yields relative paths. *)
Definition glob (pattern : text) : list Path :=
  mkPath false <$> glob_parts pattern.

Definition excluded_files : gset Path :=
  foldl (λ acc pattern, acc ∪ list_to_set (glob pattern)) ∅ excludes.

Definition matching_files : gset Path :=
  foldl (λ acc pattern,
           foldl (λ acc file,
                    if bool_decide (file ∉ excluded_files)
                    then acc ∪ {[file]} else acc)
                 acc (glob pattern))
        ∅ includes.

(** After the two [discard] calls. *)
Definition selected_files : gset Path :=
  matching_files ∖ {[script_path]} ∖ {[output_path]}.

(** The files that get past the [continue] of the aggregation loop, in
    the order of the loop. *)
Definition aggregated_files (substrings : list text) : list Path :=
  filter (λ file, name_excluded substrings file = false) (sorted selected_files).
End Selection.

(** ** Aggregation loop of [main] *)

(** What the loop writes: the text written to [outfile] so far, the lines
    printed, and [processed_count]. *)
Record Output := mkOutput {
  outfile : text;
  console : list text;
  processed_count : nat
}.

Definition header (file : Path) : text :=
  [ch_newline] ++ codes "=== " ++ path_str file ++ codes " ===" ++ [ch_newline; ch_newline].

Definition processing_line (file : Path) : text :=
  codes "Processing: " ++ path_str file.

Definition error_line (file : Path) (e : text) : text :=
  codes "Error processing " ++ path_str file ++ codes ": " ++ e.

Global Arguments header : simpl never.
Global Arguments processing_line : simpl never.
Global Arguments error_line : simpl never.

Section Aggregate.
Variable json_compact : text → option text.
(** Opening and reading a file: [inr content], or [inl e] when an
    exception is raised, [e] being its message. *)
Variable read_text : Path → text + text.
Variable substrings : list text.

(** The body of the [for] loop. *)
Definition aggregate_file (st : Output) (file : Path) : option Output :=
  if name_excluded substrings file then Some st
  else
    let st1 := mkOutput (outfile st ++ header file)
                        (console st ++ [processing_line file])
                        (processed_count st) in
    match read_text file with
    | inl e =>
      Some (mkOutput (outfile st1) (console st1 ++ [error_line file e])
                     (processed_count st1))
    | inr content =>
      '(printed, processed_content) ← process_file_content json_compact file content;
      Some (mkOutput (outfile st1 ++ processed_content) (console st1 ++ printed)
                     (S (processed_count st1)))
    end.

(** Whether the loop reads [file]: it is not excluded by name and its
    read succeeds. *)
Definition is_read (file : Path) : bool :=
  negb (name_excluded substrings file)
  && match read_text file with inr _ => true | inl _ => false end.

Fixpoint aggregate (files : list Path) (st : Output) : option Output :=
  match files with
  | [] => Some st
  | file :: rest => st' ← aggregate_file st file; aggregate rest st'
  end.

(** The combined document: everything written between opening and
    closing [outfile]. *)
Definition combined_document (tree_output : text) (files : list Path) : option Output :=
  let opening := codes "<project-tree>" ++ [ch_newline] ++ tree_output ++ [ch_newline]
                 ++ codes "</project-tree>" ++ [ch_newline]
                 ++ codes "<codebase>" ++ [ch_newline] in
  st ← aggregate files (mkOutput opening [] 0);
  Some (mkOutput (outfile st ++ [ch_newline] ++ codes "</codebase>")
                 (console st) (processed_count st)).
End Aggregate.

(** The run of [main] up to the closing of [outfile]: the selection, with
    the two paths resolved in the working directory, then the document.
    The listing printed by [generate_tree] is taken as it comes. *)
Definition main_document (cwd : list text) (glob_parts : text → list (list text))
    (json_compact : text → option text) (read_text : Path → text + text)
    (tree_output : text) (script_file output_file : Path) : option Output :=
  combined_document json_compact read_text (EXCLUDED_DIRS ++ EXCLUDED_FILES) tree_output
    (sorted (selected_files glob_parts include_patterns exclude_patterns
                            (resolve cwd script_file) (resolve cwd output_file))).

(** ** Template merge *)

(** [s.replace(old, new)] for a non-empty [old]: occurrences are found from
    left to right and do not overlap; [skip] counts the characters of a
    replaced occurrence still to pass over. *)
Fixpoint replace_from (old new : text) (skip : nat) (s : text) : text :=
  match s with
  | [] => []
  | c :: s' =>
    match skip with
    | S skip' => replace_from old new skip' s'
    | 0 =>
      if starts_with s old then new ++ replace_from old new (length old - 1) s'
      else c :: replace_from old new 0 s'
    end
  end.

Definition replace (s old new : text) : text := replace_from old new 0 s.

Definition placeholder : text := codes "${CODEBASE}".

(** [final_content = template_content.replace(placeholder, combined_content)] *)
Definition merge (template_content combined_content : text) : text :=
  replace template_content placeholder combined_content.

(** ** The scanner as a step relation *)

(** One iteration as a relation between states: the loop condition holds
    and the body runs.  [reachable] holds of the states at the head of the
    loop during the scan of [content]. *)
Definition scan_rel (content : text) (st st' : ScanState) : Prop :=
  i st < length content ∧ st' = scan_step content st.

Definition reachable (content : text) (st : ScanState) : Prop :=
  rtc (scan_rel content) init_state st.

(** The first [n] iterations of the loop from [st]; [None] if the loop
    ends before. *)
Fixpoint scan_steps (n : nat) (content : text) (st : ScanState) : option ScanState :=
  match n with
  | 0 => Some st
  | S n' =>
    if bool_decide (i st < length content) then scan_steps n' content (scan_step content st)
    else None
  end.

(** ** Comments met by a scan *)

(** Whether the iteration at [st] takes one of the comment cases of the
    body: a block-comment start outside a string, any character inside a
    block comment (its end included), or a line-comment start outside a
    string. *)
Definition comment_branch (content : text) (st : ScanState) : bool :=
  bool_decide (slice2 content (i st) = [ch_slash; ch_star]) && negb (in_string st)
  || in_multiline_comment st
  || bool_decide (slice2 content (i st) = [ch_slash; ch_slash]) && negb (in_string st).

(** Whether the loop run from [st] takes a comment case in one of its
    first [fuel] iterations. *)
Fixpoint scans_comment (fuel : nat) (content : text) (st : ScanState) : bool :=
  bool_decide (i st < length content)
  && match fuel with
     | 0 => false
     | S fuel' =>
       comment_branch content st || scans_comment fuel' content (scan_step content st)
     end.

(** Whether the scan of [content] meets a comment. *)
Definition has_comment (content : text) : bool :=
  scans_comment (length content) content init_state.

(** Whether [s] holds one of the two sequences that start a comment,
    anywhere, in a string or not. *)
Definition has_comment_start (s : text) : bool :=
  contains s [ch_slash; ch_star] || contains s [ch_slash; ch_slash].

(** Whether [prev] followed by [c] starts a comment. *)
Definition starts_comment (prev : option char) (c : char) : bool :=
  bool_decide (prev = Some ch_slash)
  && (bool_decide (c = ch_star) || bool_decide (c = ch_slash)).

(** No comment start in [s], nor across [prev] and the head of [s]. *)
Fixpoint comment_free (prev : option char) (s : text) : bool :=
  match s with
  | [] => true
  | c :: s' => negb (starts_comment prev c) && comment_free (Some c) s'
  end.

(** ** The scanner on text without comments *)

(** When no comment starts, each iteration of the loop reads one character
    and only the string and white-space cases are left.  The state is the
    character before the current one, the string flag and delimiter, and
    the buffer. *)
Record PlainState := mkPlain {
  p_prev : option char;
  p_in_string : bool;
  p_string_char : option char;
  p_buffer : text
}.

Definition plain_step (st : PlainState) (c : char) : PlainState :=
  let '(mkPlain prev ins sc buf) := st in
  if is_quote c && bool_decide (prev ≠ Some ch_backslash) then
    if negb ins then mkPlain (Some c) true (Some c) (buf ++ [c])
    else if bool_decide (Some c = sc) then mkPlain (Some c) false sc (buf ++ [c])
    else mkPlain (Some c) ins sc (buf ++ [c])
  else if isspace c && negb ins then
    if ends_with_non_space buf then mkPlain (Some c) ins sc (buf ++ [ch_space])
    else mkPlain (Some c) ins sc buf
  else mkPlain (Some c) ins sc (buf ++ [c]).

Definition plain_scan (st : PlainState) (s : text) : PlainState :=
  foldl plain_step st s.

Definition plain_init : PlainState := mkPlain None false None [].

(** No comment start outside a string in [s] scanned from [st]: at each
    character, the scanner is in a string or the character before and this
    one do not start a comment. *)
Fixpoint plain_free (st : PlainState) (s : text) : bool :=
  match s with
  | [] => true
  | c :: s' =>
    negb (negb (p_in_string st) && starts_comment (p_prev st) c)
    && plain_free (plain_step st c) s'
  end.

(** [st2] is a state of the scanner run on what the scanner in state [st1]
    has emitted so far: same buffer, same string state, the character
    before is the last one emitted, the two scanners agree on whether the
    character before is a backslash, and a slash emitted last was the
    character read last. *)
Definition rescans (st1 st2 : PlainState) : Prop :=
  p_buffer st2 = p_buffer st1
  ∧ p_in_string st2 = p_in_string st1
  ∧ p_string_char st2 = p_string_char st1
  ∧ p_prev st2 = last (p_buffer st1)
  ∧ (p_prev st1 = Some ch_backslash ↔ last (p_buffer st1) = Some ch_backslash)
  ∧ (last (p_buffer st1) = Some ch_slash → p_prev st1 = Some ch_slash).

(** ** Shapes of the output *)

(** White space in [s] is the space only, and never twice in a row. *)
Definition squeezed (s : text) : Prop :=
  Forall (λ c, isspace c = true → c = ch_space) s
  ∧ ∀ k a b, s !! k = Some a → s !! (k + 1) = Some b →
             isspace a = true → isspace b = false.

(** ** The blocks of the document *)

Section Blocks.
Variable json_compact : text → option text.
Variable read_text : Path → text + text.

(** What the loop writes for a file that it does not skip: the header,
    then the processed content when the read succeeds. *)
Definition file_block (file : Path) : text :=
  header file
  ++ match read_text file with
     | inl _ => []
     | inr content =>
       match process_file_content json_compact file content with
       | Some (_, processed_content) => processed_content
       | None => []
       end
     end.

(** What the loop prints for such a file. *)
Definition file_lines (file : Path) : list text :=
  processing_line file
  :: match read_text file with
     | inl e => [error_line file e]
     | inr _ => []
     end.
End Blocks.

(** ** Post-processing in [main] *)

(** The regular files of the file system, by resolved path, with their
    contents.  Opening a file of the map succeeds, a file not in the map
    does not exist, and writing to a path and unlinking a file of the map
    succeed. *)
Abbreviation Files := (gmap Path (list N)) (only parsing).

Definition template_path : Path := mkPath false [codes ".cursorrules-template"].
Definition rules_path : Path := mkPath false [codes ".cursorrules"].

(** The [try] block of the post-processing, run in the working directory
    [cwd] on the files [fs], on a system without symbolic links where every
    [open] of an existing file, every [open] for writing and [unlink]
    succeed ([ideal_system] below): the exit status of the process and the
    files it leaves.  Status 1 stands for both [sys.exit(1)] calls: the one
    taken when the template does not exist, and the one of the handler,
    reached here when [output_path] does not exist. *)
Definition post_process (cwd : list text) (fs : Files) (output_path : Path)
  : nat * Files :=
  match fs !! output_path with
  | None => (1, fs)
  | Some combined_content =>
    match fs !! resolve cwd template_path with
    | None => (1, fs)
    | Some template_content =>
      let final_content := merge template_content combined_content in
      let fs1 := <[resolve cwd rules_path := final_content]> fs in
      (0, delete output_path fs1)
    end
  end.

(** The run of [main] on such a system: the document is written to
    [output_path], then merged into the template. *)
Definition main_run (cwd : list text) (glob_parts : text → list (list text))
    (json_compact : text → option text) (read_text : Path → text + text)
    (tree_output : text) (script_file output_file : Path) (fs : Files)
  : option (nat * Files) :=
  document ← main_document cwd glob_parts json_compact read_text tree_output
                           script_file output_file;
  let output_path := resolve cwd output_file in
  Some (post_process cwd (<[output_path := outfile document]> fs) output_path).

(** ** The run of [main] on a given system *)

(** What the operating system answers during a run: [realpath] is the
    canonical absolute path of the file that a path names, symbolic links
    and [..] followed, which is what [Path.resolve()] returns and the file
    that opening the path opens; the other three say, by canonical path,
    whether opening the path for writing succeeds, whether opening an
    existing file for reading succeeds, and whether [unlink] of an existing
    file succeeds. *)
Record System := mkSystem {
  realpath : Path → Path;
  can_write : Path → bool;
  can_read : Path → bool;
  can_unlink : Path → bool
}.

(** The system without symbolic links on which every operation succeeds. *)
Definition ideal_system (cwd : list text) : System :=
  mkSystem (resolve cwd) (λ _, true) (λ _, true) (λ _, true).

(** The document that the run writes, the two paths discarded being the
    resolved ones. *)
Definition main_document_on (os : System) (glob_parts : text → list (list text))
    (json_compact : text → option text) (read_text : Path → text + text)
    (tree_output : text) (script_file output_file : Path) : option Output :=
  combined_document json_compact read_text (EXCLUDED_DIRS ++ EXCLUDED_FILES) tree_output
    (sorted (selected_files glob_parts include_patterns exclude_patterns
                            (realpath os script_file) (realpath os output_file))).

(** The [try] block of the post-processing.  Each way out but the last
    ends the process with status 1: an [open] or the [unlink] that raises
    is caught by the handler, which calls [sys.exit(1)], and so does the
    test of [template_path.exists()]; what was written before stays. *)
Definition post_process_on (os : System) (fs : Files) (output_path : Path)
  : nat * Files :=
  let template := realpath os template_path in
  let rules := realpath os rules_path in
  match fs !! output_path with
  | None => (1, fs)
  | Some combined_content =>
    if can_read os output_path then
      match fs !! template with
      | None => (1, fs)
      | Some template_content =>
        if can_read os template then
          if can_write os rules then
            let final_content := merge template_content combined_content in
            let fs1 := <[rules := final_content]> fs in
            if can_unlink os output_path then (0, delete output_path fs1)
            else (1, fs1)
          else (1, fs)
        else (1, fs)
      end
    else (1, fs)
  end.

(** The run of [main].  The [open] of [output_path] for writing stands
    outside every [try]: when it raises, nothing is written and the
    uncaught exception ends the process with status 1. *)
Definition main (os : System) (glob_parts : text → list (list text))
    (json_compact : text → option text) (read_text : Path → text + text)
    (tree_output : text) (script_file output_file : Path) (fs : Files)
  : option (nat * Files) :=
  let output_path := realpath os output_file in
  if can_write os output_path then
    document ← main_document_on os glob_parts json_compact read_text tree_output
                                script_file output_file;
    Some (post_process_on os (<[output_path := outfile document]> fs) output_path)
  else Some (1, fs).

(** ** Sample inputs *)

Definition a_json : Path := mkPath false [codes "a.json"].

(** The text of the spec's scenario, with a space after the colon, and its
    compact serialization. *)
Definition json_spaced : text :=
  codes "{" ++ [ch_dquote] ++ codes "a" ++ [ch_dquote] ++ codes ": 1}".
Definition json_compacted : text :=
  codes "{" ++ [ch_dquote] ++ codes "a" ++ [ch_dquote] ++ codes ":1}".

(** A working directory [/work] that holds [out.json], [lib/a.dart] and
    [notes.md], seen through the patterns of [main]. *)
Definition sample_cwd : list text := [codes "work"].
Definition sample_glob_parts (pattern : text) : list (list text) :=
  if bool_decide (pattern = codes "**/*.json") then [[codes "out.json"]]
  else if bool_decide (pattern = codes "**/*.dart") then [[codes "lib"; codes "a.dart"]]
  else if bool_decide (pattern = codes "**/*.md") then [[codes "notes.md"]]
  else [].
Definition sample_script : Path := mkPath false [codes "cursorruler.py"].
Definition out_json : Path := mkPath false [codes "out.json"].
Definition a_dart : Path := mkPath false [codes "lib"; codes "a.dart"].
Definition notes_md : Path := mkPath false [codes "notes.md"].

(** Reading [out.json] fails, every other file holds one short line. *)
Definition sample_read (file : Path) : text + text :=
  if bool_decide (file = out_json) then inl (codes "[Errno 13] Permission denied")
  else inr (codes "x  =  1").
Definition sample_json_compact (content : text) : option text := None.
Definition empty_output : Output := mkOutput [] [] 0.

(** The scenario of two JSON files, [a.json] valid and [b.json] not, with
    the tree listing reduced to a dot. *)
Definition b_json : Path := mkPath false [codes "b.json"].
Definition scenario_read (file : Path) : text + text :=
  if bool_decide (file = a_json) then inr json_spaced else inr (codes "{bad").
Definition scenario_document : text :=
  codes "<project-tree>" ++ [ch_newline] ++ codes "." ++ [ch_newline]
  ++ codes "</project-tree>" ++ [ch_newline] ++ codes "<codebase>" ++ [ch_newline]
  ++ [ch_newline] ++ codes "=== a.json ===" ++ [ch_newline; ch_newline] ++ json_spaced
  ++ [ch_newline] ++ codes "=== b.json ===" ++ [ch_newline; ch_newline] ++ codes "{bad"
  ++ [ch_newline] ++ codes "</codebase>".

(** A URL in a string, and a block comment over two lines. *)
Definition url_text : text := [ch_dquote] ++ codes "http://x" ++ [ch_dquote].
Definition block_comment_text : text :=
  codes "a /* x" ++ [ch_newline] ++ codes " y */ b".

(** Text with runs of white space outside and inside a string, and two
    slashes inside the string. *)
Definition spaced_text : text :=
  codes "  a   " ++ [ch_dquote] ++ codes "b   c //" ++ [ch_dquote] ++ [ch_newline]
  ++ codes "d  ".

(** A line comment followed by a second line, a string with an escaped
    quote in it, and a block comment that is never closed. *)
Definition line_comment_text : text := codes "a // c" ++ [ch_newline] ++ codes "b".
Definition escaped_quote_text : text :=
  [ch_squote] ++ codes "a" ++ [ch_backslash; ch_squote] ++ codes "b" ++ [ch_squote].
Definition open_comment_text : text := codes "a /* b */c /* d * / e".

(** A Dart file with its extension in capitals. *)
Definition main_dart_upper : Path := mkPath false [codes "lib"; codes "Main.DART"].

(** The default output file, and a template with the placeholder on a
    line of its own. *)
Definition combined_output : Path := mkPath false [codes "combined_output.txt"].
Definition sample_template : text :=
  codes "Header" ++ [ch_newline] ++ placeholder ++ [ch_newline] ++ codes "Footer".
Definition sample_files : gmap Path (list N) :=
  {[ resolve sample_cwd template_path := sample_template ]}.


(** * Properties *)

(** ** The scanner on an example *)

Example normalize_mixed_text :
  normalize (codes "a  /* x" ++ [ch_newline] ++ codes " y */ b // c" ++ [ch_newline]
             ++ codes " d 'e  //f' ")
  = Some (codes "a b d 'e  //f'").
Proof. by vm_compute. Qed.

(** ** Termination of the scanner *)

Lemma slice2_cons_cons content k a b :
  slice2 content k = [a; b] → ∃ rest, drop k content = a :: b :: rest.
Proof.
  unfold slice2. destruct (drop k content) as [|x [|y rest]]; simpl; try done.
  intros [= -> ->]. by exists rest.
Qed.

Lemma line_comment_length_slash rest :
  0 < line_comment_length (ch_slash :: rest).
Proof. cbn [line_comment_length]. case_bool_decide; [done | lia]. Qed.

Lemma scan_step_i_lt content st :
  i st < length content → i st < i (scan_step content st).
Proof.
  destruct st as [k mlc ins sc buf]; simpl. intros Hlt.
  destruct (bool_decide (slice2 content k = [ch_slash; ch_star]) && negb ins);
    [simpl; lia|].
  destruct (bool_decide (slice2 content k = [ch_star; ch_slash]) && mlc);
    [simpl; lia|].
  destruct mlc; [simpl; lia|].
  destruct (bool_decide (slice2 content k = [ch_slash; ch_slash]) && negb ins)
    eqn:Hline.
  - apply andb_prop in Hline as [Hline _].
    apply bool_decide_eq_true_1, slice2_cons_cons in Hline as [rest ->].
    pose proof (line_comment_length_slash (ch_slash :: rest)). cbn [i]. lia.
  - destruct (content !! k) eqn:Hk; [|apply lookup_ge_None_1 in Hk; lia].
    repeat case_match; simplify_eq; simpl; lia.
Qed.

Lemma scan_loop_is_Some fuel content st :
  length content - i st ≤ fuel → is_Some (scan_loop fuel content st).
Proof.
  revert st. induction fuel as [|fuel IH]; intros st Hfuel; simpl.
  - rewrite bool_decide_false by lia. eauto.
  - case_bool_decide; [|eauto].
    apply IH. pose proof (scan_step_i_lt content st). lia.
Qed.

Lemma scan_is_Some content : is_Some (scan content).
Proof. apply scan_loop_is_Some. simpl. lia. Qed.

Lemma normalize_is_Some content : is_Some (normalize content).
Proof. unfold normalize. destruct (scan_is_Some content) as [st ->]. simpl. eauto. Qed.

Lemma process_file_content_is_Some json_compact file content :
  is_Some (process_file_content json_compact file content).
Proof.
  unfold process_file_content.
  destruct (normalize_is_Some content) as [out ->]. simpl.
  repeat case_match; eauto.
Qed.

(** C10: the index of the scanner strictly increases in every iteration of
    the loop, the loop started with the length of the content as fuel
    leaves through its exit test, and [process_file_content] returns a
    result for every file and every content. *)
Theorem process_file_content_terminates json_compact file content :
  (∀ st, i st < length content → i st < i (scan_step content st))
  ∧ (∃ st, scan content = Some st ∧ length content ≤ i st)
  ∧ (∃ result, process_file_content json_compact file content = Some result).
Proof.
  split; [intros st; apply scan_step_i_lt|]. split.
  - destruct (scan_is_Some content) as [st Hst]. exists st. split; [done|].
    unfold scan in Hst. revert Hst. generalize init_state.
    induction (length content) as [|fuel IH] in |- * at 1; intros st0; simpl;
      case_bool_decide; try done; intros ?; simplify_eq; try lia.
    by eapply IH.
  - apply process_file_content_is_Some.
Qed.

(** ** The JSON branch *)

Lemma process_file_content_json json_compact file content :
  lower (suffix file) = codes ".json" →
  process_file_content json_compact file content
  = (out ← normalize content; Some ([], out)).
Proof.
  intros Hext. unfold process_file_content. rewrite Hext.
  by rewrite bool_decide_true by set_solver.
Qed.

(** C1 (defect of the code): the extension [.json] is in the list of the
    first branch, so a JSON file only goes through the scanner and the
    branch that re-serializes is never taken; the valid JSON text of the
    scenario keeps the space after its colon, whatever [json] would
    return. *)
Theorem json_file_is_not_reserialized json_compact :
  process_file_content json_compact a_json json_spaced = Some ([], json_spaced)
  ∧ json_spaced ≠ json_compacted.
Proof. split; [by vm_compute | by vm_compute]. Qed.

(** The scenario of the two JSON files end to end: both bodies are the
    scanner's output, [a.json] with its space. *)
Example scenario_combined_document json_compact :
  combined_document json_compact scenario_read (EXCLUDED_DIRS ++ EXCLUDED_FILES)
                    (codes ".") [a_json; b_json]
  = Some (mkOutput scenario_document
                   [processing_line a_json; processing_line b_json] 2).
Proof. by vm_compute. Qed.

(** ** File selection *)

Section SelectionFacts.
Context (glob_parts : text → list (list text)) (includes excludes : list text).

Lemma elem_of_excluded_files file :
  file ∈ excluded_files glob_parts excludes
  ↔ (∃ pattern, pattern ∈ excludes ∧ file ∈ glob glob_parts pattern).
Proof.
  unfold excluded_files.
  assert (∀ acc : gset Path,
    file ∈ foldl (λ acc pattern, acc ∪ list_to_set (glob glob_parts pattern)) acc excludes
    ↔ (file ∈ acc ∨ ∃ pattern, pattern ∈ excludes ∧ file ∈ glob glob_parts pattern))
    as Hgen.
  { induction excludes as [|p ps IH]; intros acc; simpl.
    - split; [by left|]. intros [?|(pattern & Hin & _)]; [done|].
      by apply elem_of_nil in Hin.
    - rewrite IH, elem_of_union, elem_of_list_to_set. split.
      + intros [[?|?]|(q & ? & ?)].
        * by left.
        * right. exists p. split; [apply list_elem_of_here | done].
        * right. exists q. split; [by apply list_elem_of_further | done].
      + intros [?|(q & [->|?]%elem_of_cons & ?)].
        * by left; left.
        * by left; right.
        * right. by exists q. }
  rewrite Hgen. split.
  - intros [Hin|?]; [|done]. by apply elem_of_empty in Hin.
  - by right.
Qed.

Lemma elem_of_matching_files file :
  file ∈ matching_files glob_parts includes excludes
  ↔ ((file ∉ excluded_files glob_parts excludes)
     ∧ ∃ pattern, pattern ∈ includes ∧ file ∈ glob glob_parts pattern).
Proof.
  unfold matching_files.
  set (excl := excluded_files glob_parts excludes).
  set (add := λ (acc : gset Path) file,
                if bool_decide (file ∉ excl) then acc ∪ {[file]} else acc).
  assert (∀ files (acc : gset Path),
    file ∈ foldl add acc files ↔ (file ∈ acc ∨ ((file ∉ excl) ∧ file ∈ files)))
    as Hinner.
  { induction files as [|f fs IH]; intros acc; simpl.
    - split; [by left|]. intros [?|[_ Hin]]; [done|]. by apply elem_of_nil in Hin.
    - rewrite IH. unfold add. case_bool_decide as Hf.
      + rewrite elem_of_union, elem_of_singleton. split.
        * intros [[? | ->]|[? ?]]; [by left | right | right]; (split; [done|]);
            [apply list_elem_of_here | by apply list_elem_of_further].
        * intros [?|[? [->|?]%elem_of_cons]]; [by left; left | by left; right | by right].
      + split.
        * intros [?|[? ?]]; [by left | right; split; [done | by apply list_elem_of_further]].
        * intros [?|[Hn [->|?]%elem_of_cons]]; [by left | done | by right]. }
  assert (∀ acc : gset Path,
    file ∈ foldl (λ acc pattern, foldl add acc (glob glob_parts pattern)) acc includes
    ↔ (file ∈ acc
       ∨ ((file ∉ excl)
          ∧ ∃ pattern, pattern ∈ includes ∧ file ∈ glob glob_parts pattern)))
    as Houter.
  { induction includes as [|p ps IH]; intros acc; simpl.
    - split; [by left|]. intros [?|[_ (q & Hin & _)]]; [done|].
      by apply elem_of_nil in Hin.
    - rewrite IH, Hinner. split.
      + intros [[?|[? ?]]|[? (q & ? & ?)]].
        * by left.
        * right. split; [done|]. exists p. split; [apply list_elem_of_here | done].
        * right. split; [done|]. exists q. split; [by apply list_elem_of_further | done].
      + intros [?|[? (q & [->|?]%elem_of_cons & ?)]].
        * by left; left.
        * by left; right.
        * right. split; [done|]. by exists q. }
  rewrite Houter. split.
  - intros [Hin|?]; [|done]. by apply elem_of_empty in Hin.
  - by right.
Qed.

Lemma glob_relative pattern file :
  file ∈ glob glob_parts pattern → is_absolute file = false.
Proof. unfold glob. intros (ps & -> & _)%list_elem_of_fmap. done. Qed.

Lemma matching_files_relative file :
  file ∈ matching_files glob_parts includes excludes → is_absolute file = false.
Proof.
  intros (_ & pattern & _ & Hin)%elem_of_matching_files.
  by eapply glob_relative.
Qed.

Lemma elem_of_sorted (files : gset Path) file : file ∈ sorted files ↔ file ∈ files.
Proof. unfold sorted. rewrite merge_sort_Permutation. apply elem_of_elements. Qed.
End SelectionFacts.

Lemma starts_with_spec s pattern :
  starts_with s pattern = true ↔ ∃ rest, s = pattern ++ rest.
Proof.
  revert s. induction pattern as [|a pattern IH]; intros s; simpl.
  - split; [by exists s | by destruct s].
  - destruct s as [|b s]; simpl.
    + split; [intros [=] | intros [? [=]]].
    + rewrite andb_true_iff, bool_decide_eq_true, IH. split.
      * intros [-> [rest ->]]. eauto.
      * intros [rest [= -> ->]]. eauto.
Qed.

Lemma contains_spec s pattern :
  contains s pattern = true ↔ ∃ before after, s = before ++ pattern ++ after.
Proof.
  induction s as [|c s IH]; cbn [contains].
  - rewrite orb_false_r, starts_with_spec. split.
    + intros [rest ->]. by exists [], rest.
    + intros ([|? ?] & after & Heq); [by exists after | done].
  - rewrite orb_true_iff, starts_with_spec, IH. split.
    + intros [[rest ->] | (before & after & ->)].
      * by exists [], rest.
      * by exists (c :: before), after.
    + intros ([|x before] & after & Heq); simpl in Heq.
      * left. eauto.
      * right. injection Heq as -> ->. eauto.
Qed.

(** C3: a file that reaches the aggregation is in the result of no exclude
    glob, and its string form contains none of the exclude substrings,
    whatever the include globs match. *)
Theorem selection_respects_exclusions
    glob_parts includes excludes script_path output_path substrings file :
  file ∈ aggregated_files glob_parts includes excludes script_path output_path substrings →
  (∀ pattern, pattern ∈ excludes → file ∉ glob glob_parts pattern)
  ∧ (∀ s, s ∈ substrings → ¬ ∃ before after, path_str file = before ++ s ++ after).
Proof.
  unfold aggregated_files, selected_files.
  rewrite list_elem_of_filter, elem_of_sorted, !elem_of_difference, elem_of_matching_files.
  rewrite elem_of_excluded_files.
  intros (Hname & ((Hexcl & _) & _) & _). split.
  - intros pattern Hin Hglob. apply Hexcl. eauto.
  - intros s Hin Hsub%contains_spec.
    unfold name_excluded in Hname. apply not_true_iff_false in Hname. apply Hname.
    apply existsb_exists. exists s. by rewrite <- list_elem_of_In.
Qed.

Lemma selection_respects_exclusions_witness :
  a_dart ∈ aggregated_files sample_glob_parts include_patterns exclude_patterns
             (resolve sample_cwd sample_script) (resolve sample_cwd out_json)
             (EXCLUDED_DIRS ++ EXCLUDED_FILES)
  ∧ (∀ pattern, pattern ∈ exclude_patterns → a_dart ∉ glob sample_glob_parts pattern)
  ∧ (∀ s, s ∈ EXCLUDED_DIRS ++ EXCLUDED_FILES →
          ¬ ∃ before after, path_str a_dart = before ++ s ++ after).
Proof.
  assert (a_dart ∈ aggregated_files sample_glob_parts include_patterns exclude_patterns
             (resolve sample_cwd sample_script) (resolve sample_cwd out_json)
             (EXCLUDED_DIRS ++ EXCLUDED_FILES)) as Hin.
  { vm_compute. apply list_elem_of_here. }
  split; [exact Hin|].
  exact (selection_respects_exclusions _ _ _ _ _ _ _ Hin).
Defined.

(** A file matched by an include glob and by an exclude glob is left out. *)
Example excluded_wins_over_included :
  notes_md ∈ glob sample_glob_parts (codes "**/*.md")
  ∧ codes "**/*.md" ∈ include_patterns
  ∧ codes "**/*.md" ∈ exclude_patterns
  ∧ notes_md ∉ aggregated_files sample_glob_parts include_patterns exclude_patterns
                 (resolve sample_cwd sample_script) (resolve sample_cwd out_json)
                 (EXCLUDED_DIRS ++ EXCLUDED_FILES).
Proof.
  assert (codes "**/*.md" ∈ exclude_patterns) as Hexcl.
  { vm_compute. do 1 apply list_elem_of_further. apply list_elem_of_here. }
  assert (notes_md ∈ glob sample_glob_parts (codes "**/*.md")) as Hglob.
  { vm_compute. apply list_elem_of_here. }
  split; [done|]. split; [|split; [done|]].
  - vm_compute. do 7 apply list_elem_of_further. apply list_elem_of_here.
  - intros Hin. vm_compute in Hin.
    apply elem_of_cons in Hin as [[=]|Hin]. apply elem_of_cons in Hin as [[=]|Hin].
    by apply elem_of_nil in Hin.
Qed.

(** ** The two [discard] calls *)

Lemma resolve_is_absolute cwd p : is_absolute (resolve cwd p) = true.
Proof. unfold resolve. by destruct (is_absolute p) eqn:?. Qed.

(** The paths collected from [Path().glob] are relative and the two paths
    discarded are absolute: the discards never remove anything. *)
Lemma discards_remove_nothing glob_parts includes excludes cwd script_file output_file :
  selected_files glob_parts includes excludes
                 (resolve cwd script_file) (resolve cwd output_file)
  = matching_files glob_parts includes excludes.
Proof.
  unfold selected_files. apply set_eq. intros file.
  rewrite !elem_of_difference, !elem_of_singleton. split; [tauto|].
  intros Hin. pose proof (matching_files_relative _ _ _ _ Hin) as Hrel.
  split; [split; [done|]|]; intros ->; by rewrite resolve_is_absolute in Hrel.
Qed.

(** ** The aggregation loop *)

Section AggregateFacts.
Context (json_compact : text → option text) (read_text : Path → text + text).
Context (substrings : list text).

Local Abbreviation run_file := (aggregate_file json_compact read_text substrings).
Local Abbreviation run := (aggregate json_compact read_text substrings).

Lemma aggregate_file_is_Some st file : is_Some (run_file st file).
Proof.
  unfold aggregate_file. destruct (name_excluded substrings file); [eauto|].
  destruct (read_text file) as [e|content]; [eauto|].
  destruct (process_file_content_is_Some json_compact file content) as [[??] ->].
  simpl. eauto.
Qed.

Lemma aggregate_is_Some files st : is_Some (run files st).
Proof.
  revert st. induction files as [|file rest IH]; intros st; simpl; [eauto|].
  destruct (aggregate_file_is_Some st file) as [st' ->]. simpl. apply IH.
Qed.

Lemma option_bind_Some_l {A B} (f : A → option B) x : (Some x ≫= f) = f x.
Proof. done. Qed.

Lemma aggregate_cons file rest st :
  run (file :: rest) st = (st' ← run_file st file; run rest st').
Proof. done. Qed.

Lemma aggregate_app files1 files2 st :
  run (files1 ++ files2) st = (st' ← run files1 st; run files2 st').
Proof.
  revert st. induction files1 as [|file rest IH]; intros st; simpl; [done|].
  destruct (run_file st file) as [st'|]; simpl; [apply IH | done].
Qed.

(** The files excluded by name leave no trace: the loop over a list is the
    loop over the files of the list that get past the [continue]. *)
Lemma aggregate_filter files st :
  run files st = run (filter (λ file, name_excluded substrings file = false) files) st.
Proof.
  revert st. induction files as [|file rest IH]; intros st; [done|].
  rewrite filter_cons. destruct (name_excluded substrings file) eqn:Hname.
  - rewrite decide_False by done. rewrite aggregate_cons. unfold aggregate_file at 1.
    rewrite Hname. simpl. apply IH.
  - rewrite decide_True by done. rewrite !aggregate_cons.
    destruct (run_file st file) as [st'|]; simpl; [apply IH | done].
Qed.

(** A file whose read fails: its header and the two lines printed, and
    nothing else. *)
Lemma aggregate_file_read_error st file e :
  name_excluded substrings file = false →
  read_text file = inl e →
  run_file st file
  = Some (mkOutput (outfile st ++ header file)
                   (console st ++ [processing_line file; error_line file e])
                   (processed_count st)).
Proof.
  intros Hname Hread. unfold aggregate_file. rewrite Hname, Hread. simpl.
  by rewrite <- app_assoc.
Qed.

(** The loop only appends: to the file, and to the lines printed. *)
Lemma aggregate_file_extends st file st' :
  run_file st file = Some st' →
  ∃ written printed,
    outfile st' = outfile st ++ written ∧ console st' = console st ++ printed.
Proof.
  unfold aggregate_file. destruct (name_excluded substrings file).
  { intros [= <-]. exists [], []. by rewrite !app_nil_r. }
  destruct (read_text file) as [e|content].
  { intros [= <-]. simpl. eexists _, _. by rewrite <- !app_assoc. }
  destruct (process_file_content json_compact file content) as [[printed processed]|];
    simpl; [|done].
  intros [= <-]. simpl. eexists _, _. by rewrite <- !app_assoc.
Qed.

Lemma aggregate_extends files st final :
  run files st = Some final →
  ∃ written printed,
    outfile final = outfile st ++ written ∧ console final = console st ++ printed.
Proof.
  revert st. induction files as [|file rest IH]; intros st; simpl.
  { intros [= <-]. exists [], []. by rewrite !app_nil_r. }
  destruct (run_file st file) as [st'|] eqn:Hfile; simpl; [|done].
  intros (w2 & p2 & -> & ->)%IH.
  apply aggregate_file_extends in Hfile as (w1 & p1 & -> & ->).
  eexists _, _. by rewrite <- !app_assoc.
Qed.

(** What the loop writes for a list of files does not depend on what was
    written before. *)
Lemma aggregate_file_written st1 st2 file st1' :
  run_file st1 file = Some st1' →
  ∃ written st2',
    run_file st2 file = Some st2'
    ∧ outfile st1' = outfile st1 ++ written ∧ outfile st2' = outfile st2 ++ written.
Proof.
  unfold aggregate_file. destruct (name_excluded substrings file).
  { intros [= <-]. exists [], st2. by rewrite !app_nil_r. }
  destruct (read_text file) as [e|content].
  { intros [= <-]. simpl. by eexists _, _. }
  destruct (process_file_content json_compact file content) as [[printed processed]|];
    simpl; [|done].
  intros [= <-]. simpl. eexists _, _. by rewrite <- !app_assoc.
Qed.

Lemma aggregate_written files st1 st2 final1 :
  run files st1 = Some final1 →
  ∃ written final2,
    run files st2 = Some final2
    ∧ outfile final1 = outfile st1 ++ written ∧ outfile final2 = outfile st2 ++ written.
Proof.
  revert st1 st2. induction files as [|file rest IH]; intros st1 st2; simpl.
  { intros [= <-]. exists [], st2. by rewrite !app_nil_r. }
  destruct (run_file st1 file) as [st1'|] eqn:Hfile; simpl; [|done].
  intros Hrest.
  apply (aggregate_file_written _ st2) in Hfile as (w1 & st2' & Hfile2 & Hw1 & Hw2).
  apply (IH _ st2') in Hrest as (w2 & final2 & Hrest2 & Hv1 & Hv2).
  rewrite Hfile2. simpl. exists (w1 ++ w2), final2.
  rewrite Hv1, Hv2, Hw1, Hw2. by rewrite <- !app_assoc.
Qed.

(** Every file of the list that is not excluded by name is announced, and
    when its read succeeds its header and processed content are written
    and it is counted. *)
Lemma aggregate_processes_each files st final file :
  run files st = Some final →
  file ∈ files →
  name_excluded substrings file = false →
  processing_line file ∈ console final
  ∧ (∃ before after, outfile final = before ++ header file ++ after)
  ∧ ∀ content, read_text file = inr content →
      ∃ printed processed before after,
        process_file_content json_compact file content = Some (printed, processed)
        ∧ outfile final = before ++ header file ++ processed ++ after.
Proof.
  revert st. induction files as [|f rest IH]; intros st Hrun Hin Hname.
  { by apply not_elem_of_nil in Hin. }
  simpl in Hrun.
  destruct (run_file st f) as [st'|] eqn:Hfile; simpl in Hrun; [|done].
  apply elem_of_cons in Hin as [->|Hin]; [|by eapply IH].
  clear IH. apply aggregate_extends in Hrun as (w & p & Hout & Hcon).
  unfold aggregate_file in Hfile. rewrite Hname in Hfile.
  destruct (read_text f) as [e|content] eqn:Hread.
  - injection Hfile as <-. cbn [outfile console processed_count] in *.
    split_and!; [rewrite Hcon; set_solver | | done].
    exists (outfile st), w. by rewrite Hout, <- app_assoc.
  - destruct (process_file_content json_compact f content)
      as [[printed processed]|] eqn:Hproc; simpl in Hfile; [|done].
    injection Hfile as <-. cbn [outfile console processed_count] in *.
    split_and!; [rewrite Hcon; set_solver | |].
    + exists (outfile st), (processed ++ w). by rewrite Hout, <- !app_assoc.
    + intros ? [= <-]. exists printed, processed, (outfile st), w.
      split; [done|]. rewrite Hout. by rewrite <- !app_assoc.
Qed.

(** The files counted are those read. *)
Lemma aggregate_processed_count files st final :
  run files st = Some final →
  processed_count final
  = processed_count st
    + length (filter (λ f, is_read read_text substrings f = true) files).
Proof.
  revert st. induction files as [|f rest IH]; intros st; simpl.
  { intros [= <-]. simpl. lia. }
  destruct (run_file st f) as [st'|] eqn:Hfile; simpl; [|done].
  intros ->%IH. rewrite filter_cons.
  unfold aggregate_file, is_read in *.
  destruct (name_excluded substrings f); simpl.
  { injection Hfile as <-. done. }
  destruct (read_text f) as [e|content]; simpl.
  { injection Hfile as <-. done. }
  destruct (process_file_content json_compact f content) as [[??]|];
    cbn [outfile console processed_count] in *; [|done].
  injection Hfile as <-. simpl. lia.
Qed.
End AggregateFacts.

(** ** The output file in its own document *)

(** C4 (defect of the code): run with the output file [out.json] in a
    directory that already holds a file of that name, the loop aggregates
    [out.json], the relative path of the very file that [output_path]
    names, which the set never held as the absolute path discarded: the
    document gets a block for it, whatever the files hold. *)
Theorem output_file_is_aggregated json_compact read_text tree_output :
  out_json ∈ aggregated_files sample_glob_parts include_patterns exclude_patterns
               (resolve sample_cwd sample_script) (resolve sample_cwd out_json)
               (EXCLUDED_DIRS ++ EXCLUDED_FILES)
  ∧ (resolve sample_cwd out_json ∉ matching_files sample_glob_parts include_patterns
                                      exclude_patterns)
  ∧ ∃ document,
      main_document sample_cwd sample_glob_parts json_compact read_text tree_output
                    sample_script out_json = Some document
      ∧ processing_line out_json ∈ console document
      ∧ ∃ before after, outfile document = before ++ header out_json ++ after.
Proof.
  assert (out_json ∈ sorted (selected_files sample_glob_parts include_patterns
                               exclude_patterns (resolve sample_cwd sample_script)
                               (resolve sample_cwd out_json))) as Hin.
  { vm_compute. apply list_elem_of_further, list_elem_of_here. }
  split_and!.
  - vm_compute. apply list_elem_of_further, list_elem_of_here.
  - intros Hrel%matching_files_relative. by rewrite resolve_is_absolute in Hrel.
  - unfold main_document, combined_document.
    match goal with |- context [aggregate _ _ _ ?files ?st] =>
      destruct (aggregate_is_Some json_compact read_text
                  (EXCLUDED_DIRS ++ EXCLUDED_FILES) files st) as [final Hfinal];
      destruct (aggregate_processes_each json_compact read_text
                  (EXCLUDED_DIRS ++ EXCLUDED_FILES) files st final out_json Hfinal Hin)
        as (Hline & (before & after & Hout) & _); [by vm_compute|]
    end.
    rewrite Hfinal. eexists. split; [done|]. cbn [console outfile]. split; [done|].
    exists before, (after ++ [ch_newline] ++ codes "</codebase>").
    by rewrite Hout, <- !app_assoc.
Qed.

(** The loop after a failed read, in terms of the three texts that the
    body builds. *)
Lemma read_failure_continues
    json_compact read_text substrings pre file post e st :
  name_excluded substrings file = false →
  read_text file = inl e →
  ∃ st1 final,
    aggregate json_compact read_text substrings pre st = Some st1
    ∧ aggregate json_compact read_text substrings (pre ++ file :: post) st = Some final
    ∧ aggregate json_compact read_text substrings post
        (mkOutput (outfile st1 ++ header file)
                  (console st1 ++ [processing_line file; error_line file e])
                  (processed_count st1))
      = Some final
    ∧ error_line file e ∈ console final
    ∧ processed_count final
      = processed_count st
        + length (filter (λ f, is_read read_text substrings f = true) (pre ++ post))
    ∧ ∀ later, later ∈ post → name_excluded substrings later = false →
        processing_line later ∈ console final
        ∧ (∃ before after, outfile final = before ++ header later ++ after)
        ∧ ∀ content, read_text later = inr content →
            ∃ printed processed before after,
              process_file_content json_compact later content = Some (printed, processed)
              ∧ outfile final = before ++ header later ++ processed ++ after.
Proof.
  intros Hname Hread.
  destruct (aggregate_is_Some json_compact read_text substrings pre st) as [st1 Hpre].
  pose proof (aggregate_file_read_error json_compact read_text substrings st1 file e
                Hname Hread) as Hfile.
  set (st2 := mkOutput (outfile st1 ++ header file)
                       (console st1 ++ [processing_line file; error_line file e])
                       (processed_count st1)) in *.
  destruct (aggregate_is_Some json_compact read_text substrings post st2) as [final Hpost].
  exists st1, final.
  assert (aggregate json_compact read_text substrings (pre ++ file :: post) st = Some final)
    as Hrun.
  { by rewrite aggregate_app, Hpre, option_bind_Some_l, aggregate_cons, Hfile. }
  split_and!; try done.
  - apply aggregate_extends in Hpost as (w & p & _ & ->). subst st2. simpl. set_solver.
  - apply aggregate_processed_count in Hpost as ->.
    apply aggregate_processed_count in Hpre as Hcount. subst st2. simpl.
    rewrite Hcount, filter_app, length_app. lia.
  - intros later Hin Hlater.
    by apply (aggregate_processes_each _ _ _ _ _ _ _ Hpost).
Qed.

(** C8 (amended): when the read of a file of the list fails, the loop
    still runs to its end.  For that file it has printed its Processing
    line and written its header, it prints the line Error processing,
    the path, a colon and the message, writes nothing more and counts
    nothing; it goes on from there with the files after it, each of which
    is announced and, when it is read, written with its header and its
    processed content.  The file is skipped in that its content is not
    written and it is not counted, not in that it leaves no trace. *)
Theorem read_failure_does_not_abort
    json_compact read_text substrings pre file post e st :
  name_excluded substrings file = false →
  read_text file = inl e →
  ∃ st1 final,
    aggregate json_compact read_text substrings pre st = Some st1
    ∧ aggregate json_compact read_text substrings (pre ++ file :: post) st = Some final
    ∧ aggregate json_compact read_text substrings post
        (mkOutput (outfile st1
                   ++ [ch_newline] ++ codes "=== " ++ path_str file ++ codes " ==="
                   ++ [ch_newline; ch_newline])
                  (console st1
                   ++ [codes "Processing: " ++ path_str file;
                       codes "Error processing " ++ path_str file ++ codes ": " ++ e])
                  (processed_count st1))
      = Some final
    ∧ (codes "Error processing " ++ path_str file ++ codes ": " ++ e) ∈ console final
    ∧ processed_count final
      = processed_count st
        + length (filter (λ f, is_read read_text substrings f = true) (pre ++ post))
    ∧ ∀ later, later ∈ post → name_excluded substrings later = false →
        (codes "Processing: " ++ path_str later) ∈ console final
        ∧ (∃ before after,
             outfile final
             = before ++ ([ch_newline] ++ codes "=== " ++ path_str later ++ codes " ==="
                          ++ [ch_newline; ch_newline]) ++ after)
        ∧ ∀ content, read_text later = inr content →
            ∃ printed processed before after,
              process_file_content json_compact later content = Some (printed, processed)
              ∧ outfile final
                = before ++ ([ch_newline] ++ codes "=== " ++ path_str later
                             ++ codes " ===" ++ [ch_newline; ch_newline])
                  ++ processed ++ after.
Proof.
  intros Hname Hread.
  destruct (read_failure_continues json_compact read_text substrings pre file post e st
              Hname Hread)
    as (st1 & final & Hpre & Hrun & Hpost & Herr & Hcount & Hlater).
  exists st1, final.
  split_and!; [exact Hpre | exact Hrun | exact Hpost | exact Herr | exact Hcount |].
  intros later Hin Hexcl. destruct (Hlater later Hin Hexcl) as (Hann & Hhead & Hbody).
  split_and!; [exact Hann | exact Hhead |].
  intros content Hcontent.
  destruct (Hbody content Hcontent) as (printed & processed & before & after & Hp & Hout).
  exists printed, processed, before, after. split; [exact Hp | exact Hout].
Qed.

Lemma read_failure_does_not_abort_witness :
  ∃ st1 final,
    aggregate sample_json_compact sample_read (EXCLUDED_DIRS ++ EXCLUDED_FILES)
              [a_dart] empty_output = Some st1
    ∧ aggregate sample_json_compact sample_read (EXCLUDED_DIRS ++ EXCLUDED_FILES)
                ([a_dart] ++ out_json :: [a_json]) empty_output = Some final
    ∧ codes "Error processing out.json: [Errno 13] Permission denied" ∈ console final
    ∧ processed_count final = 2
    ∧ codes "Processing: a.json" ∈ console final.
Proof.
  destruct (read_failure_does_not_abort sample_json_compact sample_read
              (EXCLUDED_DIRS ++ EXCLUDED_FILES) [a_dart] out_json [a_json]
              (codes "[Errno 13] Permission denied") empty_output)
    as (st1 & final & Hpre & Hrun & _ & Herr & Hcount & Hlater);
    [by vm_compute | by vm_compute |].
  exists st1, final. split_and!; [exact Hpre | exact Hrun | exact Herr | exact Hcount |].
  destruct (Hlater a_json) as (Hann & _); [apply list_elem_of_here | by vm_compute |].
  exact Hann.
Defined.

(** C8 (the claim as stated fails): a file whose read fails is not
    skipped.  In the run over [lib/a.dart], [out.json], which cannot be
    read, and [a.json], the document and the console are not those of the
    run over the other two files: the document holds the header block of
    [out.json] and the console its Processing line. *)
Lemma unreadable_file_is_not_skipped :
  ∃ final skipped,
    aggregate sample_json_compact sample_read (EXCLUDED_DIRS ++ EXCLUDED_FILES)
              [a_dart; out_json; a_json] empty_output = Some final
    ∧ aggregate sample_json_compact sample_read (EXCLUDED_DIRS ++ EXCLUDED_FILES)
                [a_dart; a_json] empty_output = Some skipped
    ∧ outfile final
      = [ch_newline] ++ codes "=== lib/a.dart ===" ++ [ch_newline; ch_newline]
        ++ codes "x = 1"
        ++ [ch_newline] ++ codes "=== out.json ===" ++ [ch_newline; ch_newline]
        ++ [ch_newline] ++ codes "=== a.json ===" ++ [ch_newline; ch_newline]
        ++ codes "x = 1"
    ∧ outfile skipped
      = [ch_newline] ++ codes "=== lib/a.dart ===" ++ [ch_newline; ch_newline]
        ++ codes "x = 1"
        ++ [ch_newline] ++ codes "=== a.json ===" ++ [ch_newline; ch_newline]
        ++ codes "x = 1"
    ∧ console final
      = [codes "Processing: lib/a.dart"; codes "Processing: out.json";
         codes "Error processing out.json: [Errno 13] Permission denied";
         codes "Processing: a.json"]
    ∧ console skipped = [codes "Processing: lib/a.dart"; codes "Processing: a.json"]
    ∧ outfile final ≠ outfile skipped.
Proof.
  eexists _, _. split_and!; [by vm_compute | by vm_compute | by vm_compute | by vm_compute
                            | by vm_compute | by vm_compute |].
  intros Heq. apply (f_equal length) in Heq. by vm_compute in Heq.
Qed.

(** The header of a file whose read fails, between what the files before
    it wrote and what the files after it write. *)
Lemma failed_read_header_between
    json_compact read_text substrings pre file post e st :
  name_excluded substrings file = false →
  read_text file = inl e →
  ∃ st1 final tail,
    aggregate json_compact read_text substrings pre st = Some st1
    ∧ aggregate json_compact read_text substrings (pre ++ file :: post) st = Some final
    ∧ outfile final = outfile st1 ++ header file ++ tail
    ∧ ∀ st0, ∃ final0,
        aggregate json_compact read_text substrings post st0 = Some final0
        ∧ outfile final0 = outfile st0 ++ tail.
Proof.
  intros Hname Hread.
  destruct (aggregate_is_Some json_compact read_text substrings pre st) as [st1 Hpre].
  pose proof (aggregate_file_read_error json_compact read_text substrings st1 file e
                Hname Hread) as Hfile.
  set (st2 := mkOutput (outfile st1 ++ header file)
                       (console st1 ++ [processing_line file; error_line file e])
                       (processed_count st1)) in *.
  destruct (aggregate_is_Some json_compact read_text substrings post st2) as [final Hpost].
  destruct (aggregate_written json_compact read_text substrings post st2 st2 final Hpost)
    as (tail & ? & _ & Hfinal & _).
  exists st1, final, tail. split_and!; try done.
  - by rewrite aggregate_app, Hpre, option_bind_Some_l, aggregate_cons, Hfile.
  - rewrite Hfinal. subst st2. simpl. by rewrite <- app_assoc.
  - intros st0.
    destruct (aggregate_written json_compact read_text substrings post st2 st0 final Hpost)
      as (tail' & final0 & Hrun0 & Hfinal' & Hfinal0).
    exists final0. split; [done|].
    rewrite Hfinal' in Hfinal. apply app_inv_head in Hfinal. by subst.
Qed.

(** C9: the header of a file whose read fails, a line break, the path
    between two runs of three equal signs, and two line breaks, is in the
    document, between what the files before it wrote and what the files
    after it write, with nothing of its own after it; the document of the
    same run without the file is the same text without this header, and so
    a different one. *)
Theorem failed_read_leaves_header
    json_compact read_text substrings pre file post e st :
  name_excluded substrings file = false →
  read_text file = inl e →
  ∃ st1 final absent tail,
    aggregate json_compact read_text substrings pre st = Some st1
    ∧ aggregate json_compact read_text substrings (pre ++ file :: post) st = Some final
    ∧ outfile final
      = outfile st1
        ++ ([ch_newline] ++ codes "=== " ++ path_str file ++ codes " ==="
            ++ [ch_newline; ch_newline])
        ++ tail
    ∧ aggregate json_compact read_text substrings (pre ++ post) st = Some absent
    ∧ outfile absent = outfile st1 ++ tail
    ∧ outfile final ≠ outfile absent
    ∧ ∀ st0, ∃ final0,
        aggregate json_compact read_text substrings post st0 = Some final0
        ∧ outfile final0 = outfile st0 ++ tail.
Proof.
  intros Hname Hread.
  destruct (failed_read_header_between json_compact read_text substrings pre file post e st
              Hname Hread)
    as (st1 & final & tail & Hpre & Hrun & Hout & Htail).
  destruct (Htail st1) as (absent & Habsent & Hwithout).
  exists st1, final, absent, tail.
  split_and!; [exact Hpre | exact Hrun | exact Hout | | exact Hwithout | | exact Htail].
  - by rewrite aggregate_app, Hpre, option_bind_Some_l.
  - rewrite Hout, Hwithout. unfold header. intros Heq%app_inv_head.
    apply (f_equal length) in Heq. rewrite !length_app in Heq. cbn [length] in Heq. lia.
Qed.

Lemma failed_read_leaves_header_witness :
  ∃ st1 final absent tail,
    aggregate sample_json_compact sample_read (EXCLUDED_DIRS ++ EXCLUDED_FILES)
              [a_dart] empty_output = Some st1
    ∧ aggregate sample_json_compact sample_read (EXCLUDED_DIRS ++ EXCLUDED_FILES)
                ([a_dart] ++ out_json :: [a_json]) empty_output = Some final
    ∧ outfile final
      = outfile st1
        ++ ([ch_newline] ++ codes "=== out.json ===" ++ [ch_newline; ch_newline])
        ++ tail
    ∧ aggregate sample_json_compact sample_read (EXCLUDED_DIRS ++ EXCLUDED_FILES)
                ([a_dart] ++ [a_json]) empty_output = Some absent
    ∧ outfile absent = outfile st1 ++ tail
    ∧ outfile final ≠ outfile absent.
Proof.
  destruct (failed_read_leaves_header sample_json_compact sample_read
              (EXCLUDED_DIRS ++ EXCLUDED_FILES) [a_dart] out_json [a_json]
              (codes "[Errno 13] Permission denied") empty_output)
    as (st1 & final & absent & tail & Hpre & Hrun & Hout & Habsent & Hwithout & Hne & _);
    [by vm_compute | by vm_compute |].
  exists st1, final, absent, tail.
  split_and!; [exact Hpre | exact Hrun | exact Hout | exact Habsent | exact Hwithout
              | exact Hne].
Defined.

(** ** Template merge *)

Lemma replace_from_skip old new skipped rest :
  replace_from old new (length skipped) (skipped ++ rest) = replace_from old new 0 rest.
Proof.
  induction skipped as [|c skipped IH]; simpl; [|done].
  by destruct rest.
Qed.

Lemma replace_from_match old new rest :
  old ≠ [] →
  replace_from old new 0 (old ++ rest) = new ++ replace_from old new 0 rest.
Proof.
  destruct old as [|c old]; [done|]. intros _.
  assert (starts_with ((c :: old) ++ rest) (c :: old) = true) as Hstart.
  { apply starts_with_spec. by exists rest. }
  cbn [replace_from app] in *. rewrite Hstart. f_equal.
  replace (length (c :: old) - 1) with (length old) by (simpl; lia).
  apply replace_from_skip.
Qed.

Lemma starts_with_app_l s rest pattern :
  starts_with (s ++ rest) pattern = true → length pattern ≤ length s →
  starts_with s pattern = true.
Proof.
  revert s. induction pattern as [|a pattern IH]; intros [|b s]; simpl; try done.
  - lia.
  - intros [-> Hstart]%andb_prop Hlen. rewrite IH; [done | done | lia].
Qed.

(** The placeholder has its dollar sign at the front only, so that an
    occurrence cannot begin inside another one. *)
Lemma placeholder_dollar_only_first k :
  0 < k → placeholder !! k ≠ Some 36%N.
Proof.
  intros Hk. do 12 (destruct k as [|k]; [by (lia || vm_compute)|]). by vm_compute.
Qed.

Lemma not_starts_with_segment c t rest :
  contains (c :: t) placeholder = false →
  rest = [] ∨ (∃ rest', rest = placeholder ++ rest') →
  starts_with ((c :: t) ++ rest) placeholder = false.
Proof.
  intros Hfree Hrest. apply not_true_iff_false. intros Hstart.
  cbn [contains] in Hfree. apply orb_false_elim in Hfree as [Hhere _].
  destruct (decide (length placeholder ≤ length (c :: t))) as [Hlen|Hlen].
  { by rewrite (starts_with_app_l _ _ _ Hstart Hlen) in Hhere. }
  apply starts_with_spec in Hstart as [r Heq].
  destruct Hrest as [->|[rest' ->]].
  - apply (f_equal length) in Heq. rewrite app_nil_r, length_app in Heq. lia.
  - assert (((c :: t) ++ placeholder ++ rest') !! length (c :: t) = Some 36%N) as Hl.
    { by rewrite lookup_app_r, Nat.sub_diag by done. }
    rewrite Heq, lookup_app_l in Hl by lia.
    revert Hl. apply placeholder_dollar_only_first. simpl. lia.
Qed.

Lemma replace_from_segment new t rest :
  contains t placeholder = false →
  rest = [] ∨ (∃ rest', rest = placeholder ++ rest') →
  replace_from placeholder new 0 (t ++ rest)
  = t ++ replace_from placeholder new 0 rest.
Proof.
  intros Hfree Hrest. induction t as [|c t IH]; [done|].
  pose proof (not_starts_with_segment c t rest Hfree Hrest) as Hstart.
  cbn [app replace_from] in *. rewrite Hstart. f_equal. apply IH.
  cbn [contains] in Hfree. by apply orb_false_elim in Hfree as [_ ?].
Qed.

Lemma merge_join_with combined segments :
  Forall (λ t, contains t placeholder = false) segments →
  merge (join_with placeholder segments) combined = join_with combined segments.
Proof.
  unfold merge, replace.
  induction 1 as [|t [|t' segments] Hfree Hrest IH].
  - done.
  - cbn [join_with]. rewrite <- (app_nil_r t) at 1.
    rewrite replace_from_segment; [by rewrite app_nil_r | done | by left].
  - change (join_with placeholder (t :: t' :: segments))
      with (t ++ placeholder ++ join_with placeholder (t' :: segments)).
    change (join_with combined (t :: t' :: segments))
      with (t ++ combined ++ join_with combined (t' :: segments)).
    rewrite replace_from_segment; [|done|right; eauto].
    by rewrite replace_from_match, IH.
Qed.

Lemma starts_with_app_r s rest pattern :
  starts_with s pattern = true → starts_with (s ++ rest) pattern = true.
Proof.
  rewrite !starts_with_spec. intros [r ->]. exists (r ++ rest). by rewrite app_assoc.
Qed.

Lemma join_with_cons_head sep c first segments :
  join_with sep ((c :: first) :: segments) = c :: join_with sep (first :: segments).
Proof. by destruct segments. Qed.

Lemma join_with_head_app sep first segments :
  ∃ rest, join_with sep (first :: segments) = first ++ rest.
Proof. destruct segments; [exists []; by rewrite app_nil_r | by eexists]. Qed.

(** Every text is cut by the occurrences of the placeholder into segments
    that hold none. *)
Lemma placeholder_segments template :
  ∃ segments,
    template = join_with placeholder segments
    ∧ Forall (λ t, contains t placeholder = false) segments.
Proof.
  assert (∀ n template, length template ≤ n → ∃ first segments,
            template = join_with placeholder (first :: segments)
            ∧ Forall (λ t, contains t placeholder = false) (first :: segments))
    as Hgen.
  { clear template. induction n as [|n IH]; intros [|c template] Hlen;
      try (by exists [], []; split; [|repeat constructor]); [simpl in Hlen; lia|].
    simpl in Hlen.
    destruct (starts_with (c :: template) placeholder) eqn:Hstart.
    - apply starts_with_spec in Hstart as [r Heq].
      destruct (IH r) as (first & segments & -> & Hfree).
      { apply (f_equal length) in Heq. rewrite length_app in Heq. simpl in Heq. lia. }
      exists [], (first :: segments). split; [by rewrite Heq|].
      by constructor.
    - destruct (IH template) as (first & segments & Heq & Hfree); [lia|].
      exists (c :: first), segments. rewrite join_with_cons_head, <- Heq.
      split; [done|]. inversion_clear Hfree as [|?? Hfirst Hrest].
      constructor; [|done]. cbn [contains]. rewrite Hfirst, orb_false_r.
      apply not_true_iff_false. intros Hhere.
      destruct (join_with_head_app placeholder first segments) as [rest Hjoin].
      rewrite Heq, Hjoin in Hstart.
      pose proof (starts_with_app_r (c :: first) rest placeholder Hhere) as Hlong.
      cbn [app] in Hlong. congruence. }
  destruct (Hgen (length template) template) as (first & segments & ? & ?); eauto.
Qed.

(** C7: every text is the join, by the placeholder, of segments that do
    not contain it, and the merge of such a join is the join of the same
    segments by the payload: each occurrence of the placeholder is replaced,
    and the payload is not searched again. *)
Theorem merge_replaces_every_occurrence combined :
  (∀ segments,
     Forall (λ t, contains t placeholder = false) segments →
     merge (join_with placeholder segments) combined = join_with combined segments)
  ∧ (∀ template, ∃ segments,
       template = join_with placeholder segments
       ∧ Forall (λ t, contains t placeholder = false) segments
       ∧ merge template combined = join_with combined segments).
Proof.
  split; [apply merge_join_with|]. intros template.
  destruct (placeholder_segments template) as (segments & -> & Hfree).
  exists segments. split_and!; [done | done | by apply merge_join_with].
Qed.

(** The scenarios of the spec: one occurrence, and two. *)
Example merge_header_footer :
  merge (codes "Header" ++ [ch_newline] ++ placeholder ++ [ch_newline] ++ codes "Footer")
        (codes "X")
  = codes "Header" ++ [ch_newline] ++ codes "X" ++ [ch_newline] ++ codes "Footer".
Proof. by vm_compute. Qed.

Example merge_two_occurrences before between after combined :
  contains before placeholder = false →
  contains between placeholder = false →
  contains after placeholder = false →
  merge (before ++ placeholder ++ between ++ placeholder ++ after) combined
  = before ++ combined ++ between ++ combined ++ after.
Proof.
  intros. apply (merge_join_with combined [before; between; after]).
  by repeat constructor.
Qed.

(** ** The scanner as a step relation *)

Lemma scan_loop_rtc fuel content st final :
  scan_loop fuel content st = Some final →
  rtc (scan_rel content) st final ∧ length content ≤ i final.
Proof.
  revert st. induction fuel as [|fuel IH]; intros st; simpl;
    case_bool_decide; try done; intros Hrun; simplify_eq; try (split; [done | lia]).
  apply IH in Hrun as [Hsteps Hexit]. split; [|done].
  by eapply rtc_l.
Qed.

Lemma scan_rel_to_exit content st st' final :
  rtc (scan_rel content) st st' →
  rtc (scan_rel content) st final → length content ≤ i final →
  rtc (scan_rel content) st' final.
Proof.
  induction 1 as [|st mid st' [Hlt ->] _ IH]; [done|].
  intros Hfinal Hexit. apply IH; [|done].
  inversion Hfinal as [|? mid' ? [_ ->]]; simplify_eq; [lia | done].
Qed.

Lemma reachable_to_final content st final :
  reachable content st → scan content = Some final →
  rtc (scan_rel content) st final.
Proof.
  intros Hreach [Hsteps Hexit]%scan_loop_rtc. by eapply scan_rel_to_exit.
Qed.



(** No state of the loop is both in a string and in a block comment. *)
Lemma scan_step_string_xor_comment content st :
  in_string st && in_multiline_comment st = false →
  in_string (scan_step content st) && in_multiline_comment (scan_step content st) = false.
Proof.
  destruct st as [k mlc ins sc buf]. unfold scan_step. simpl.
  destruct ins, mlc; simpl; rewrite ?andb_false_r, ?andb_true_r; try done;
    repeat case_match; simpl; done.
Qed.

Lemma reachable_string_xor_comment content st :
  reachable content st → in_string st && in_multiline_comment st = false.
Proof.
  unfold reachable. revert st. apply rtc_ind_r; [done|].
  intros mid st' _ [_ ->] IH. by apply scan_step_string_xor_comment.
Qed.

Lemma slice2_lookup content k a b :
  slice2 content k = [a; b] ↔ content !! k = Some a ∧ content !! (k + 1) = Some b.
Proof.
  unfold slice2. rewrite <- (Nat.add_0_r k) at 2. rewrite <- !lookup_drop.
  destruct (drop k content) as [|x [|y rest]]; simpl.
  - split; [done | by intros [? ?]].
  - split; [done | by intros [? ?]].
  - split; [by intros [= -> ->] | by intros [[= ->] [= ->]]].
Qed.



Lemma scan_steps_rtc n content st st' :
  scan_steps n content st = Some st' → rtc (scan_rel content) st st'.
Proof.
  revert st. induction n as [|n IH]; intros st; simpl; [by intros [= ->]|].
  case_bool_decide; [|done]. intros Hrun%IH. by eapply rtc_l.
Qed.


Example url_is_kept : normalize url_text = Some url_text.
Proof. by vm_compute. Qed.

(** ** Block comments *)

Lemma lookup_pair_split (l : text) j a b :
  l !! j = Some a → l !! (j + 1) = Some b → ∃ l1 l2, l = l1 ++ [a; b] ++ l2.
Proof.
  intros Ha Hb. exists (take j l), (drop (S (S j)) l).
  replace (j + 1) with (S j) in Hb by lia.
  rewrite <- (take_drop j l) at 1. f_equal.
  rewrite (drop_S l a j Ha). cbn [app]. f_equal. apply (drop_S l b (S j) Hb).
Qed.

Section BlockComment.
Context (opening body after content : text).
Hypothesis content_eq : content = opening ++ body ++ [ch_star; ch_slash] ++ after.
Hypothesis body_has_no_end : ¬ ∃ l1 l2, body = l1 ++ [ch_star; ch_slash] ++ l2.


End BlockComment.







Example block_comment_example : normalize block_comment_text = Some (codes "a b").
Proof. by vm_compute. Qed.

(** ** Idempotence on text without comments *)

(** *** Text without comment starts has no comment *)

Lemma comment_free_no_start prev s :
  comment_free prev s = false →
  (∃ c s', s = c :: s' ∧ starts_comment prev c = true) ∨ has_comment_start s = true.
Proof.
  revert prev. induction s as [|c s IH]; intros prev; cbn [comment_free]; [done|].
  intros [Hhere|Hrest]%andb_false_iff.
  - left. exists c, s. by apply negb_false_iff in Hhere.
  - right. apply IH in Hrest as [(c' & s' & -> & Hstart)|Hrest].
    + unfold starts_comment in Hstart.
      apply andb_prop in Hstart as [[= ->]%bool_decide_eq_true_1 Hc'].
      unfold has_comment_start.
      apply orb_prop in Hc' as [->%bool_decide_eq_true_1 | ->%bool_decide_eq_true_1];
        apply orb_true_iff; [left | right]; apply contains_spec; by exists [], s'.
    + unfold has_comment_start in *.
      apply orb_prop in Hrest as [Hrest|Hrest]; apply orb_true_iff; [left | right];
        apply contains_spec in Hrest as (l1 & l2 & ->);
        apply contains_spec; by exists (c :: l1), l2.
Qed.

Lemma has_comment_start_free s :
  has_comment_start s = false → comment_free None s = true.
Proof.
  intros Hfree. apply not_false_iff_true. intros Hnot.
  apply comment_free_no_start in Hnot as [(c & s' & -> & Hstart)|Hstart]; [done|congruence].
Qed.

(** No window of [content[i : i + 2]] is a comment start. *)
Lemma comment_free_slice2 s k :
  comment_free None s = true →
  slice2 s k ≠ [ch_slash; ch_star] ∧ slice2 s k ≠ [ch_slash; ch_slash].
Proof.
  assert (∀ prev (s : text) k a b,
            comment_free prev s = true → s !! k = Some a → s !! (k + 1) = Some b →
            starts_comment (Some a) b = false) as Hgen.
  { clear. intros prev s. revert prev. induction s as [|c s IH]; intros prev k a b; [done|].
    cbn [comment_free]. intros [_ Hrest]%andb_prop. destruct k as [|k]; simpl.
    - intros [= ->]. destruct s as [|c' s]; [done|]. intros [= ->].
      cbn [comment_free] in Hrest. apply andb_prop in Hrest as [Hhere _].
      by apply negb_true_iff in Hhere.
    - intros Ha Hb. by apply (IH (Some c) k a b). }
  intros Hfree. split; intros [Ha Hb]%slice2_lookup;
    by pose proof (Hgen _ _ _ _ _ Hfree Ha Hb).
Qed.

Lemma scan_step_no_block_comment content st :
  in_multiline_comment st = false →
  slice2 content (i st) ≠ [ch_slash; ch_star] →
  in_multiline_comment (scan_step content st) = false.
Proof.
  destruct st as [k mlc ins sc buf]. cbn [in_multiline_comment i]. intros -> Hopen.
  unfold scan_step. rewrite (bool_decide_false _ Hopen), andb_false_r. simpl.
  by repeat case_match.
Qed.

(** A text that holds neither comment start has no comment. *)
Lemma no_comment_start_no_comment content :
  has_comment_start content = false → has_comment content = false.
Proof.
  intros Hfree%has_comment_start_free. unfold has_comment.
  assert (in_multiline_comment init_state = false) as Hinit by done.
  revert Hinit. generalize init_state.
  induction (length content) as [|fuel IH] in |- * at 1; intros st Hst; cbn [scans_comment].
  - by rewrite andb_false_r.
  - destruct (comment_free_slice2 content (i st) Hfree) as [Hblock Hline].
    unfold comment_branch.
    rewrite (bool_decide_false _ Hblock), (bool_decide_false _ Hline), Hst. simpl.
    rewrite IH; [by rewrite andb_false_r|]. by apply scan_step_no_block_comment.
Qed.

(** *** The loop on text without comments is [plain_scan] *)

Lemma slice2_app_cons pre c rest :
  slice2 (pre ++ c :: rest) (length pre) = c :: take 1 rest.
Proof. unfold slice2. by rewrite drop_app_length. Qed.

Lemma plain_step_prev st c : p_prev (plain_step st c) = Some c.
Proof. destruct st. unfold plain_step. by repeat case_match. Qed.

Lemma plain_step_in_string st c :
  is_quote c = false → p_in_string (plain_step st c) = p_in_string st.
Proof. destruct st. unfold plain_step. intros ->. simpl. by repeat case_match. Qed.

Lemma scan_step_plain content pre c rest mlc ins sc buf :
  content = pre ++ c :: rest →
  comment_branch content (mkScan (length pre) mlc ins sc buf) = false →
  mlc = false
  ∧ ∃ ins' sc' buf',
      plain_step (mkPlain (last pre) ins sc buf) c = mkPlain (Some c) ins' sc' buf'
      ∧ scan_step content (mkScan (length pre) mlc ins sc buf)
        = mkScan (length pre + 1) false ins' sc' buf'.
Proof.
  intros Hcontent Hbranch. unfold comment_branch in Hbranch.
  cbn [i in_string in_multiline_comment] in Hbranch.
  apply orb_false_elim in Hbranch as [Hbranch Hline].
  apply orb_false_elim in Hbranch as [Hblock ->]. split; [done|].
  assert (content !! length pre = Some c) as Hc.
  { by rewrite Hcontent, lookup_app_r, Nat.sub_diag by lia. }
  assert (bool_decide (length pre = 0)
          || bool_decide (content !! (length pre - 1) ≠ Some ch_backslash)
          = bool_decide (last pre ≠ Some ch_backslash)) as Hprev.
  { destruct pre as [|x pre _] using rev_ind; [done|].
    rewrite last_snoc, length_app. simpl.
    rewrite (bool_decide_false (_ = 0)) by lia. simpl.
    replace (length pre + 1 - 1) with (length pre) by lia.
    by rewrite Hcontent, <- app_assoc, lookup_app_r, Nat.sub_diag by lia. }
  unfold scan_step, plain_step.
  rewrite Hblock, Hline, andb_false_r, Hc, Hprev. simpl.
  repeat case_match; eauto.
Qed.

Lemma plain_free_comment_branch content pre c rest prev ins sc buf :
  content = pre ++ c :: rest →
  plain_free (mkPlain prev ins sc buf) (c :: rest) = true →
  comment_branch content (mkScan (length pre) false ins sc buf) = false.
Proof.
  intros -> Hfree. unfold comment_branch. cbn [i in_string in_multiline_comment].
  rewrite slice2_app_cons, orb_false_r.
  destruct ins; [by rewrite !andb_false_r|]. rewrite !andb_true_r.
  cbn [plain_free] in Hfree. apply andb_prop in Hfree as [_ Hrest].
  destruct rest as [|c' rest]; [by rewrite !bool_decide_false|].
  cbn [plain_free take] in *. apply andb_prop in Hrest as [Hhere _].
  rewrite plain_step_prev in Hhere.
  destruct (decide (c = ch_slash)) as [->|Hc].
  2:{ rewrite !bool_decide_false; [done | congruence | congruence]. }
  rewrite plain_step_in_string in Hhere by done. cbn [p_in_string negb andb] in Hhere.
  apply negb_true_iff in Hhere. unfold starts_comment in Hhere.
  rewrite bool_decide_true in Hhere by done. cbn [andb] in Hhere.
  apply orb_false_elim in Hhere as [Hstar%bool_decide_eq_false_1 Hslash%bool_decide_eq_false_1].
  rewrite !bool_decide_false; [done | congruence | congruence].
Qed.

Lemma scan_loop_plain content pre rest fuel ins sc buf :
  content = pre ++ rest →
  plain_free (mkPlain (last pre) ins sc buf) rest = true →
  length rest ≤ fuel →
  ∃ final,
    scan_loop fuel content (mkScan (length pre) false ins sc buf) = Some final
    ∧ buffer final = p_buffer (plain_scan (mkPlain (last pre) ins sc buf) rest).
Proof.
  revert pre fuel ins sc buf.
  induction rest as [|c rest IH]; intros pre fuel ins sc buf Hcontent Hfree Hfuel.
  - exists (mkScan (length pre) false ins sc buf). split; [|done].
    rewrite app_nil_r in Hcontent. subst pre.
    destruct fuel; simpl; by rewrite bool_decide_false by lia.
  - destruct fuel as [|fuel]; [simpl in Hfuel; lia|].
    pose proof (plain_free_comment_branch _ _ _ _ _ _ _ _ Hcontent Hfree) as Hbranch.
    destruct (scan_step_plain content pre c rest false ins sc buf Hcontent Hbranch)
      as (_ & ins' & sc' & buf' & Hplain & Hstep).
    cbn [scan_loop]. rewrite bool_decide_true.
    2:{ rewrite Hcontent, length_app. simpl. lia. }
    rewrite Hstep. unfold plain_scan. cbn [foldl]. rewrite Hplain.
    cbn [plain_free] in Hfree. apply andb_prop in Hfree as [_ Hfree].
    rewrite Hplain in Hfree.
    destruct (IH (pre ++ [c]) fuel ins' sc' buf') as (final & Hrun & Hbuf).
    + by rewrite <- app_assoc.
    + by rewrite last_snoc.
    + simpl in Hfuel. lia.
    + rewrite length_app, last_snoc in *. simpl in Hrun. eauto.
Qed.

Lemma normalize_plain content :
  plain_free plain_init content = true →
  normalize content = Some (strip (p_buffer (plain_scan plain_init content))).
Proof.
  intros Hfree. unfold normalize, scan.
  destruct (scan_loop_plain content [] content (length content) false None [])
    as (final & Hrun & Hbuf); [done | done | done |].
  change (mkScan (length []) false false None []) with init_state in Hrun.
  rewrite Hrun. simpl. by rewrite Hbuf.
Qed.

(** A scan that takes no comment case is a scan of comment-free text. *)
Lemma scans_comment_plain_free content pre rest fuel mlc ins sc buf :
  content = pre ++ rest →
  length rest ≤ fuel →
  scans_comment fuel content (mkScan (length pre) mlc ins sc buf) = false →
  match rest with
  | c :: _ => negb ins && starts_comment (last pre) c = false
  | [] => True
  end →
  plain_free (mkPlain (last pre) ins sc buf) rest = true.
Proof.
  revert pre fuel mlc ins sc buf.
  induction rest as [|c rest IH]; intros pre fuel mlc ins sc buf Hcontent Hfuel Hscan Hhere;
    [done|].
  destruct fuel as [|fuel]; [simpl in Hfuel; lia|].
  cbn [scans_comment i] in Hscan. rewrite bool_decide_true in Hscan.
  2:{ rewrite Hcontent, length_app. simpl. lia. }
  cbn [andb] in Hscan. apply orb_false_elim in Hscan as [Hbranch Hscan].
  destruct (scan_step_plain content pre c rest mlc ins sc buf Hcontent Hbranch)
    as (-> & ins' & sc' & buf' & Hplain & Hstep).
  cbn [plain_free p_in_string p_prev]. rewrite Hhere, Hplain. cbn [negb andb].
  rewrite Hstep in Hscan.
  replace (length pre + 1) with (length (pre ++ [c])) in Hscan
    by (rewrite length_app; simpl; lia).
  rewrite <- (last_snoc c pre).
  apply (IH (pre ++ [c]) fuel false ins' sc' buf'); [by rewrite <- app_assoc | | done |].
  { simpl in Hfuel. lia. }
  destruct rest as [|c' rest]; [done|]. rewrite last_snoc.
  destruct (starts_comment (Some c) c') eqn:Hstart; [|by rewrite andb_false_r].
  unfold starts_comment in Hstart.
  apply andb_prop in Hstart as [[= ->]%bool_decide_eq_true_1 Hc'].
  assert (ins' = ins) as ->.
  { change ins with (p_in_string (mkPlain (last pre) ins sc buf)).
    rewrite <- (plain_step_in_string (mkPlain (last pre) ins sc buf) ch_slash) by done.
    by rewrite Hplain. }
  unfold comment_branch in Hbranch. cbn [i in_string in_multiline_comment] in Hbranch.
  rewrite Hcontent, slice2_app_cons in Hbranch. cbn [take] in Hbranch.
  destruct ins; [done|]. exfalso. rewrite !andb_true_r, orb_false_r in Hbranch.
  apply orb_false_elim in Hbranch as [Hstar%bool_decide_eq_false_1 Hslash%bool_decide_eq_false_1].
  apply orb_prop in Hc' as [->%bool_decide_eq_true_1 | ->%bool_decide_eq_true_1]; done.
Qed.

Lemma has_comment_plain_free content :
  has_comment content = false → plain_free plain_init content = true.
Proof.
  intros Hscan.
  apply (scans_comment_plain_free content [] content (length content) false false None []);
    [done | done | done |].
  by destruct content.
Qed.

(** *** Scanning the output again *)

Lemma is_quote_not_space c : is_quote c = true → isspace c = false.
Proof.
  unfold is_quote. intros Hq%bool_decide_eq_true_1. set_unfold.
  destruct Hq as [->|[->|[->|[]]]]; by vm_compute.
Qed.

Lemma isspace_not_backslash c : isspace c = true → c ≠ ch_backslash.
Proof. by intros Hc ->. Qed.

Lemma ends_with_space_last buf c :
  ends_with_non_space buf = false → last buf = Some c → isspace c = true.
Proof.
  unfold ends_with_non_space. intros Hends Hlast. rewrite Hlast in Hends.
  by apply negb_false_iff in Hends.
Qed.

(** The scanner run on what it emits for [c] emits the same again, and
    meets no comment start outside a string there if it met none at [c]. *)
Lemma plain_step_rescans st1 st2 c :
  rescans st1 st2 →
  negb (p_in_string st1) && starts_comment (p_prev st1) c = false →
  ∃ emitted,
    p_buffer (plain_step st1 c) = p_buffer st1 ++ emitted
    ∧ rescans (plain_step st1 c) (plain_scan st2 emitted)
    ∧ plain_free st2 emitted = true.
Proof.
  destruct st1 as [prev1 ins sc buf], st2 as [prev2 ins2 sc2 buf2].
  unfold rescans. cbn [p_prev p_in_string p_string_char p_buffer].
  intros (-> & -> & -> & -> & Hesc & Hslash) Hfree.
  assert (bool_decide (last buf ≠ Some ch_backslash)
          = bool_decide (prev1 ≠ Some ch_backslash)) as Hprev.
  { apply bool_decide_ext. by rewrite Hesc. }
  assert (plain_free (mkPlain (last buf) ins sc buf) [c] = true) as Hfree_c.
  { cbn [plain_free p_in_string p_prev]. rewrite andb_true_r. apply negb_true_iff.
    destruct ins; [done|]. cbn [negb andb] in *.
    unfold starts_comment in *.
    destruct (decide (last buf = Some ch_slash)) as [Hlast|Hlast];
      [|by rewrite bool_decide_false].
    rewrite bool_decide_true in Hfree by auto. by rewrite bool_decide_true. }
  destruct (plain_step (mkPlain prev1 ins sc buf) c) as [prev' ins' sc' buf'] eqn:Hstep.
  unfold plain_step in Hstep. cbn [p_prev p_in_string p_string_char p_buffer].
  destruct (is_quote c && bool_decide (prev1 ≠ Some ch_backslash)) eqn:Hquote.
  - exists [c].
    assert (plain_scan (mkPlain (last buf) ins sc buf) [c] = mkPlain prev' ins' sc' buf')
      as ->.
    { unfold plain_scan. cbn [foldl]. unfold plain_step. by rewrite Hprev, Hquote. }
    cbn [p_prev p_in_string p_string_char p_buffer].
    repeat case_match; simplify_eq; rewrite last_snoc; split_and!; done.
  - destruct (isspace c && negb ins) eqn:Hspace.
    + apply andb_prop in Hspace as [Hc Hins]. apply negb_true_iff in Hins as ->.
      destruct (ends_with_non_space buf) eqn:Hends; simplify_eq.
      * exists [ch_space].
        assert (plain_scan (mkPlain (last buf) false sc' buf) [ch_space]
                = mkPlain (Some ch_space) false sc' (buf ++ [ch_space])) as ->.
        { unfold plain_scan. cbn [foldl]. unfold plain_step.
          change (is_quote ch_space) with false. change (isspace ch_space) with true.
          cbn [andb negb]. by rewrite Hends. }
        cbn [p_prev p_in_string p_string_char p_buffer]. rewrite last_snoc.
        split_and!; try done.
        -- split; [intros [= Heq]; by apply isspace_not_backslash in Hc | intros [=]].
        -- cbn [plain_free p_in_string p_prev]. unfold starts_comment.
           by rewrite andb_false_r.
      * exists []. unfold plain_scan. cbn [foldl p_prev p_in_string p_string_char p_buffer].
        rewrite app_nil_r. split_and!; try done.
        -- split; [intros [= Heq]; by apply isspace_not_backslash in Hc|].
           intros Hlast. by pose proof (ends_with_space_last _ _ Hends Hlast).
        -- intros Hlast. by pose proof (ends_with_space_last _ _ Hends Hlast).
    + exists [c]. simplify_eq.
      assert (plain_scan (mkPlain (last buf) ins' sc' buf) [c]
              = mkPlain (Some c) ins' sc' (buf ++ [c])) as ->.
      { unfold plain_scan. cbn [foldl]. unfold plain_step. by rewrite Hprev, Hquote, Hspace. }
      cbn [p_prev p_in_string p_string_char p_buffer]. rewrite last_snoc.
      split_and!; done.
Qed.

Lemma plain_free_app st s1 s2 :
  plain_free st (s1 ++ s2) = plain_free st s1 && plain_free (plain_scan st s1) s2.
Proof.
  revert st. induction s1 as [|c s1 IH]; intros st; [done|].
  cbn [app plain_free]. rewrite IH, <- andb_assoc. done.
Qed.

Lemma plain_scan_rescans s st1 st2 :
  rescans st1 st2 →
  plain_free st1 s = true →
  ∃ emitted,
    p_buffer (plain_scan st1 s) = p_buffer st1 ++ emitted
    ∧ rescans (plain_scan st1 s) (plain_scan st2 emitted)
    ∧ plain_free st2 emitted = true.
Proof.
  revert st1 st2. induction s as [|c s IH]; intros st1 st2 Hre Hfree.
  - exists []. by rewrite app_nil_r.
  - cbn [plain_free] in Hfree. apply andb_prop in Hfree as [Hc%negb_true_iff Hfree].
    destruct (plain_step_rescans st1 st2 c Hre Hc) as (em1 & Hbuf1 & Hre1 & Hfree1).
    destruct (IH _ _ Hre1 Hfree) as (em2 & Hbuf2 & Hre2 & Hfree2).
    exists (em1 ++ em2). unfold plain_scan in *. cbn [foldl].
    rewrite foldl_app, Hbuf2, Hbuf1, <- app_assoc, plain_free_app.
    unfold plain_scan. by rewrite Hfree1, Hfree2.
Qed.

Lemma plain_init_rescans : rescans plain_init plain_init.
Proof. by repeat split. Qed.

(** If scanning [l1 ++ l2] appends exactly [l1 ++ l2], scanning [l1]
    appends exactly [l1]: every character appends at most one. *)
Lemma plain_scan_fixed_prefix st l1 l2 :
  p_buffer (plain_scan st (l1 ++ l2)) = p_buffer st ++ l1 ++ l2 →
  p_buffer (plain_scan st l1) = p_buffer st ++ l1.
Proof.
  assert (∀ st s, ∃ emitted,
            p_buffer (plain_scan st s) = p_buffer st ++ emitted
            ∧ length emitted ≤ length s) as Hemits.
  { clear. intros st s. revert st. induction s as [|c s IH]; intros st.
    - exists []. by rewrite app_nil_r.
    - destruct (IH (plain_step st c)) as (em2 & Hbuf2 & Hlen2).
      assert (∃ em1, p_buffer (plain_step st c) = p_buffer st ++ em1 ∧ length em1 ≤ 1)
        as (em1 & Hbuf1 & Hlen1).
      { destruct st. unfold plain_step.
        repeat case_match; cbn [p_buffer];
          (eexists [_]; split; [reflexivity | simpl; lia])
          || (exists []; split; [by rewrite app_nil_r | simpl; lia]). }
      exists (em1 ++ em2). unfold plain_scan in *. cbn [foldl].
      rewrite Hbuf2, Hbuf1, length_app, <- app_assoc. simpl. split; [done|lia]. }
  unfold plain_scan. rewrite foldl_app. fold (plain_scan st l1).
  destruct (Hemits st l1) as (em1 & Hbuf1 & Hlen1).
  destruct (Hemits (plain_scan st l1) l2) as (em2 & Hbuf2 & Hlen2).
  unfold plain_scan in Hbuf2 at 1. rewrite Hbuf2, Hbuf1, <- app_assoc.
  intros Heq%app_inv_head. f_equal.
  apply app_inj_1 in Heq as [? _]; [done|].
  apply (f_equal length) in Heq. rewrite !length_app in Heq. lia.
Qed.

(** *** Stripping *)

Lemma plain_step_head st c :
  match p_buffer st with [] => p_in_string st = false | x :: _ => isspace x = false end →
  match p_buffer (plain_step st c) with
  | [] => p_in_string (plain_step st c) = false
  | x :: _ => isspace x = false
  end.
Proof.
  destruct st as [prev ins sc [|x buf]]; cbn [p_buffer p_in_string].
  - intros ->. unfold plain_step.
    destruct (is_quote c && bool_decide (prev ≠ Some ch_backslash)) eqn:Hquote.
    + apply andb_prop in Hquote as [Hq%is_quote_not_space _]. done.
    + simpl. rewrite andb_true_r. destruct (isspace c) eqn:Hc; simpl; done.
  - intros Hx. unfold plain_step.
    destruct (is_quote c && bool_decide (prev ≠ Some ch_backslash));
      [destruct (negb ins); [done | by destruct (bool_decide (Some c = sc))]|].
    destruct (isspace c && negb ins); [by destruct (ends_with_non_space (x :: buf)) | done].
Qed.

(** The buffer never starts with white space. *)
Lemma plain_scan_head s st :
  match p_buffer st with [] => p_in_string st = false | x :: _ => isspace x = false end →
  lstrip (p_buffer (plain_scan st s)) = p_buffer (plain_scan st s).
Proof.
  revert st. induction s as [|c s IH]; intros st Hst.
  - simpl. destruct (p_buffer st); [done|]. simpl. by rewrite Hst.
  - apply (IH (plain_step st c)). by apply plain_step_head.
Qed.

Lemma lstrip_suffix s : lstrip s `suffix_of` s.
Proof.
  induction s as [|c s IH]; simpl; [done|].
  destruct (isspace c); [by apply suffix_cons_r | done].
Qed.

Lemma lstrip_idemp s : lstrip (lstrip s) = lstrip s.
Proof.
  induction s as [|c s IH]; simpl; [done|].
  destruct (isspace c) eqn:Hc; [done|]. simpl. by rewrite Hc.
Qed.

Lemma rstrip_prefix s : rstrip s `prefix_of` s.
Proof.
  unfold rstrip. rewrite <- (reverse_involutive s) at 2.
  apply suffix_prefix_reverse, lstrip_suffix.
Qed.

Lemma rstrip_idemp s : rstrip (rstrip s) = rstrip s.
Proof. unfold rstrip. by rewrite reverse_involutive, lstrip_idemp. Qed.

Lemma lstrip_prefix_id s t : lstrip s = s → t `prefix_of` s → lstrip t = t.
Proof.
  intros Hs [rest ->]. destruct t as [|c t]; [done|]. simpl in *.
  destruct (isspace c); [|done].
  pose proof (lstrip_suffix (t ++ rest)) as Hsuf. rewrite Hs in Hsuf.
  apply suffix_length in Hsuf. simpl in Hsuf. lia.
Qed.

Lemma strip_idemp_no_lead s : lstrip s = s → strip (strip s) = strip s ∧ strip s = rstrip s.
Proof.
  intros Hs. unfold strip. rewrite Hs.
  by rewrite (lstrip_prefix_id s (rstrip s) Hs (rstrip_prefix s)), rstrip_idemp.
Qed.

(** *** The theorem *)

Lemma normalize_idempotent content :
  has_comment content = false →
  ∃ out, normalize content = Some out ∧ normalize out = Some out.
Proof.
  intros Hfree%has_comment_plain_free.
  set (B := p_buffer (plain_scan plain_init content)).
  assert (lstrip B = B) as Hlead by (by apply plain_scan_head).
  destruct (strip_idemp_no_lead B Hlead) as [Hidemp Hstrip].
  destruct (plain_scan_rescans content _ _ plain_init_rescans Hfree)
    as (emitted & Hem & (Hbuf & _) & HfreeB).
  simpl in Hem. fold B in Hem. subst emitted.
  destruct (rstrip_prefix B) as [rest Hrest]. rewrite <- Hstrip in Hrest.
  assert (plain_free plain_init (strip B) = true) as HfreeO.
  { rewrite Hrest, plain_free_app in HfreeB. by apply andb_prop in HfreeB as [? _]. }
  assert (p_buffer (plain_scan plain_init (strip B)) = strip B) as Hfixed.
  { apply (plain_scan_fixed_prefix plain_init (strip B) rest). by rewrite <- Hrest, Hbuf. }
  exists (strip B). split.
  - by apply normalize_plain.
  - by rewrite (normalize_plain (strip B) HfreeO), Hfixed, Hidemp.
Qed.

(** C2: on a text in whose scan no comment case is taken (no comment start
    outside a string; in particular a text that holds neither of the two
    comment starts at all), the result of [process_file_content] is a text
    that it returns unchanged; for the three structured extensions that is
    the stripped buffer of the scanner.  Nothing is asked of the quotes:
    the statement holds for balanced and for unbalanced ones. *)
Theorem process_file_content_idempotent json_compact file content :
  has_comment content = false →
  ∃ out,
    process_file_content json_compact file content = Some ([], out)
    ∧ process_file_content json_compact file out = Some ([], out)
    ∧ (lower (suffix file) ∈ [codes ".dart"; codes ".yaml"; codes ".json"] →
       normalize content = Some out ∧ normalize out = Some out).
Proof.
  intros Hfree. unfold process_file_content. case_bool_decide as Hext.
  - destruct (normalize_idempotent content Hfree) as (out & Hrun & Hagain).
    exists out. by rewrite Hrun, Hagain.
  - rewrite bool_decide_false by set_solver. by exists content.
Qed.

Lemma process_file_content_idempotent_witness :
  ∃ out,
    process_file_content sample_json_compact a_dart spaced_text = Some ([], out)
    ∧ process_file_content sample_json_compact a_dart out = Some ([], out).
Proof.
  destruct (process_file_content_idempotent sample_json_compact a_dart spaced_text)
    as (out & Hrun & Hagain & _); [by vm_compute|].
  by exists out.
Defined.

Example spaced_text_normalized :
  normalize spaced_text
  = Some (codes "a " ++ [ch_dquote] ++ codes "b   c //" ++ [ch_dquote] ++ codes " d").
Proof. by vm_compute. Qed.

(** * Further properties of the scanner *)

(** ** What the scanner can emit *)

Lemma line_comment_length_le rest : line_comment_length rest ≤ length rest.
Proof.
  induction rest as [|c rest IH]; simpl; [done|]. case_bool_decide; lia.
Qed.

Lemma slice2_length content k a b :
  slice2 content k = [a; b] → k + 2 ≤ length content.
Proof.
  intros [rest Hdrop]%slice2_cons_cons. apply (f_equal length) in Hdrop.
  rewrite length_drop in Hdrop. simpl in Hdrop. lia.
Qed.

(** One iteration appends at most one character, a character of the
    content or a space, moves the index past what it appends, and never
    moves it past the end. *)
Lemma scan_step_emits content st :
  i st < length content →
  ∃ emitted,
    buffer (scan_step content st) = buffer st ++ emitted
    ∧ i st + length emitted ≤ i (scan_step content st)
    ∧ i (scan_step content st) ≤ length content
    ∧ Forall (λ c, c ∈ content ∨ c = ch_space) emitted.
Proof.
  destruct st as [k mlc ins sc buf]. cbn [i buffer]. intros Hlt.
  assert (∀ k' mlc' ins' sc', k < k' → k' ≤ length content →
            ∃ emitted, buffer (mkScan k' mlc' ins' sc' buf) = buf ++ emitted
              ∧ k + length emitted ≤ i (mkScan k' mlc' ins' sc' buf)
              ∧ i (mkScan k' mlc' ins' sc' buf) ≤ length content
              ∧ Forall (λ c, c ∈ content ∨ c = ch_space) emitted) as Hskip.
  { intros. exists []. rewrite app_nil_r. simpl. split_and!; [done | lia | done | done]. }
  assert (∀ mlc' ins' sc' c, c ∈ content ∨ c = ch_space →
            ∃ emitted, buffer (mkScan (k + 1) mlc' ins' sc' (buf ++ [c])) = buf ++ emitted
              ∧ k + length emitted ≤ i (mkScan (k + 1) mlc' ins' sc' (buf ++ [c]))
              ∧ i (mkScan (k + 1) mlc' ins' sc' (buf ++ [c])) ≤ length content
              ∧ Forall (λ c, c ∈ content ∨ c = ch_space) emitted) as Happend.
  { intros ???? Hc. exists [c]. simpl. split_and!; [done | lia | lia | by constructor]. }
  unfold scan_step.
  destruct (bool_decide (slice2 content k = [ch_slash; ch_star]) && negb ins) eqn:Hopen.
  { apply andb_prop in Hopen as [Hopen%bool_decide_eq_true_1%slice2_length _].
    apply Hskip; lia. }
  destruct (bool_decide (slice2 content k = [ch_star; ch_slash]) && mlc) eqn:Hclose.
  { apply andb_prop in Hclose as [Hclose%bool_decide_eq_true_1%slice2_length _].
    apply Hskip; lia. }
  destruct mlc; [apply Hskip; lia|].
  destruct (bool_decide (slice2 content k = [ch_slash; ch_slash]) && negb ins) eqn:Hline.
  { apply andb_prop in Hline as [Hline%bool_decide_eq_true_1 _].
    pose proof (line_comment_length_le (drop k content)) as Hle.
    rewrite length_drop in Hle.
    apply slice2_cons_cons in Hline as [rest Hdrop]. apply Hskip; [|lia].
    rewrite Hdrop. pose proof (line_comment_length_slash (ch_slash :: rest)). lia. }
  destruct (content !! k) as [c|] eqn:Hc; [|apply lookup_ge_None_1 in Hc; lia].
  assert (c ∈ content) as Hin by (by eapply list_elem_of_lookup_2).
  repeat case_match; (apply Happend; by auto) || (apply Hskip; lia).
Qed.

Lemma reachable_emits content st :
  reachable content st →
  i st ≤ length content
  ∧ length (buffer st) ≤ i st
  ∧ Forall (λ c, c ∈ content ∨ c = ch_space) (buffer st).
Proof.
  unfold reachable. revert st. apply rtc_ind_r.
  { simpl. split_and!; [lia | done | done]. }
  intros st st' _ [Hlt ->] (Hi & Hlen & Hall).
  destruct (scan_step_emits content st Hlt) as (em & -> & Hadv & Hend & Hem).
  rewrite length_app, Forall_app. split_and!; [done | lia | done | done].
Qed.

Lemma scan_reachable content final :
  scan content = Some final → reachable content final ∧ length content ≤ i final.
Proof. intros Hscan. by apply scan_loop_rtc in Hscan. Qed.

(** The stripped text lies inside the text. *)
Lemma strip_infix s : ∃ before after, s = before ++ strip s ++ after.
Proof.
  unfold strip. destruct (lstrip_suffix s) as [before Hs].
  destruct (rstrip_prefix (lstrip s)) as [after Hl].
  exists before, after. by rewrite <- Hl.
Qed.

(** X1: the text returned for a structured file is never longer than the
    content, and each of its characters is a character of the content or
    the space. *)
Theorem normalize_emits_from_content content :
  ∃ out,
    normalize content = Some out
    ∧ length out ≤ length content
    ∧ Forall (λ c, c ∈ content ∨ c = ch_space) out.
Proof.
  destruct (scan_is_Some content) as [final Hscan].
  destruct (scan_reachable content final Hscan) as [Hreach Hexit].
  destruct (reachable_emits content final Hreach) as (Hi & Hlen & Hall).
  exists (strip (buffer final)). unfold normalize. rewrite Hscan. simpl.
  destruct (strip_infix (buffer final)) as (before & after & Heq).
  split_and!; [done | |].
  - apply (f_equal length) in Heq. rewrite !length_app in Heq. lia.
  - rewrite Heq in Hall. by apply Forall_app in Hall as [_ [? _]%Forall_app].
Qed.

(** ** No white space at either end *)

Lemma lstrip_head s c : head (lstrip s) = Some c → isspace c = false.
Proof.
  induction s as [|x s IH]; simpl; [done|].
  destruct (isspace x) eqn:Hx; [done|]. by intros [= <-].
Qed.

Lemma rstrip_last s c : last (rstrip s) = Some c → isspace c = false.
Proof. unfold rstrip. rewrite last_reverse. apply lstrip_head. Qed.

Lemma strip_idemp s : strip (strip s) = strip s.
Proof.
  unfold strip.
  rewrite (lstrip_prefix_id (lstrip s) (rstrip (lstrip s)));
    [apply rstrip_idemp | apply lstrip_idemp | apply rstrip_prefix].
Qed.

Lemma strip_ends s :
  (∀ c, head (strip s) = Some c → isspace c = false)
  ∧ (∀ c, last (strip s) = Some c → isspace c = false).
Proof.
  split; intros c Hc; [|by apply rstrip_last in Hc].
  assert (lstrip (strip s) = strip s) as Heq.
  { apply (lstrip_prefix_id (lstrip s)); [apply lstrip_idemp | apply rstrip_prefix]. }
  rewrite <- Heq in Hc. by apply lstrip_head in Hc.
Qed.

(** X2: the text returned for a structured file has no white space at
    either end, so that stripping it again changes nothing. *)
Theorem normalize_has_no_outer_space content :
  ∃ out,
    normalize content = Some out
    ∧ strip out = out
    ∧ (∀ c, head out = Some c → isspace c = false)
    ∧ (∀ c, last out = Some c → isspace c = false).
Proof.
  destruct (scan_is_Some content) as [final Hscan].
  exists (strip (buffer final)). unfold normalize. rewrite Hscan. simpl.
  destruct (strip_ends (buffer final)) as [Hhead Hlast].
  split_and!; [done | apply strip_idemp | done | done].
Qed.

(** ** Content without quotes comes out on one line *)

Lemma squeezed_nil : squeezed [].
Proof. split; [done|]. by intros k a b [=]. Qed.

Lemma squeezed_snoc s c :
  squeezed s →
  (isspace c = true → c = ch_space ∧ ends_with_non_space s = true) →
  squeezed (s ++ [c]).
Proof.
  intros [Hall Hadj] Hc. split.
  - apply Forall_app. split; [done|]. constructor; [|done]. intros Hs. by apply Hc.
  - intros k a b Ha Hb Hspace.
    destruct (decide (k + 1 < length s)) as [Hin|Hout].
    + rewrite lookup_app_l in Ha, Hb by lia. exact (Hadj k a b Ha Hb Hspace).
    + assert (k + 1 = length s) as Hk.
      { apply lookup_lt_Some in Hb. rewrite length_app in Hb. simpl in Hb. lia. }
      rewrite lookup_app_r, Hk, Nat.sub_diag in Hb by lia. injection Hb as <-.
      rewrite lookup_app_l in Ha by lia.
      destruct (isspace c) eqn:Hcs; [|done]. destruct (Hc eq_refl) as [_ Hends].
      unfold ends_with_non_space in Hends. rewrite last_lookup in Hends.
      replace (pred (length s)) with k in Hends by lia. rewrite Ha in Hends.
      by rewrite Hspace in Hends.
Qed.

Lemma squeezed_infix before s after : squeezed (before ++ s ++ after) → squeezed s.
Proof.
  intros [Hall Hadj]. split.
  - by apply Forall_app in Hall as [_ [? _]%Forall_app].
  - intros k a b Ha Hb. apply (Hadj (length before + k)).
    + apply lookup_lt_Some in Ha as Hlt. rewrite lookup_app_r by lia.
      replace (length before + k - length before) with k by lia.
      by rewrite lookup_app_l by lia.
    + apply lookup_lt_Some in Hb as Hlt. rewrite lookup_app_r by lia.
      replace (length before + k + 1 - length before) with (k + 1) by lia.
      by rewrite lookup_app_l by lia.
Qed.

Lemma scan_step_no_quote content st :
  Forall (λ c, is_quote c = false) content →
  in_string st = false → squeezed (buffer st) →
  in_string (scan_step content st) = false ∧ squeezed (buffer (scan_step content st)).
Proof.
  destruct st as [k mlc ins sc buf]. cbn [in_string buffer]. intros Hquotes -> Hbuf.
  unfold scan_step.
  destruct (bool_decide (slice2 content k = [ch_slash; ch_star]) && negb false); [done|].
  destruct (bool_decide (slice2 content k = [ch_star; ch_slash]) && mlc); [done|].
  destruct mlc; [done|].
  destruct (bool_decide (slice2 content k = [ch_slash; ch_slash]) && negb false); [done|].
  destruct (content !! k) as [c|] eqn:Hc; [|done].
  rewrite (proj1 (Forall_lookup _ _) Hquotes k c Hc). cbn [andb negb].
  rewrite andb_true_r. destruct (isspace c) eqn:Hspace.
  - destruct (ends_with_non_space buf) eqn:Hends; [|done].
    cbn [in_string buffer]. split; [done|]. by apply squeezed_snoc.
  - cbn [in_string buffer]. split; [done|]. apply squeezed_snoc; [done|].
    intros Hs. by rewrite Hspace in Hs.
Qed.

(** X3: when the content holds no quote character, the text returned holds
    no white space but the space, and no two spaces in a row: it is one
    line of words, comments removed or not. *)
Theorem normalize_without_quotes_is_one_line content :
  Forall (λ c, is_quote c = false) content →
  ∃ out, normalize content = Some out ∧ squeezed out.
Proof.
  intros Hquotes. destruct (scan_is_Some content) as [final Hscan].
  exists (strip (buffer final)). unfold normalize. rewrite Hscan. simpl.
  split; [done|].
  destruct (scan_reachable content final Hscan) as [Hreach _].
  assert (in_string final = false ∧ squeezed (buffer final)) as [_ Hbuf].
  { clear Hscan. revert final Hreach.
    apply rtc_ind_r; [split; [done | apply squeezed_nil]|].
    intros st st' _ [_ ->] [Hins Hbuf]. by apply scan_step_no_quote. }
  destruct (strip_infix (buffer final)) as (before & after & Heq).
  apply (squeezed_infix before _ after). by rewrite <- Heq.
Qed.

Lemma normalize_without_quotes_is_one_line_witness :
  ∃ out, normalize block_comment_text = Some out ∧ squeezed out.
Proof.
  apply normalize_without_quotes_is_one_line.
  by vm_compute; repeat constructor.
Defined.

(** ** Line comments *)

Lemma line_comment_length_app comment rest :
  ch_newline ∉ comment →
  (∀ c, head rest = Some c → c = ch_newline) →
  line_comment_length (comment ++ rest) = length comment.
Proof.
  intros Hnl Hrest. induction comment as [|c comment IH]; simpl.
  - destruct rest as [|c rest]; [done|]. simpl.
    rewrite bool_decide_true; [done|]. by apply Hrest.
  - rewrite bool_decide_false.
    + f_equal. apply IH. intros Hin. apply Hnl. by right.
    + intros ->. apply Hnl. by left.
Qed.

(** X4: at two slashes outside a string and outside a block comment, one
    iteration moves the index to the next newline, or to the end of the
    content when there is none, and appends nothing: the comment is dropped
    and the scan resumes at the line break itself. *)
Theorem line_comment_is_dropped content before comment rest st :
  content = before ++ [ch_slash; ch_slash] ++ comment ++ rest →
  ch_newline ∉ comment →
  (∀ c, head rest = Some c → c = ch_newline) →
  i st = length before → in_string st = false → in_multiline_comment st = false →
  scan_step content st
  = mkScan (length before + 2 + length comment) false false (string_char st) (buffer st)
  ∧ drop (length before + 2 + length comment) content = rest.
Proof.
  intros -> Hnl Hrest Hi Hins Hmlc. destruct st as [k mlc ins sc buf].
  simpl in Hi, Hins, Hmlc. subst. cbn [string_char buffer]. split.
  - unfold scan_step. rewrite !andb_false_r. cbn [negb]. rewrite !andb_true_r.
    unfold slice2. rewrite drop_app_length. cbn [app take].
    rewrite bool_decide_false by done. rewrite bool_decide_true by done.
    cbn [line_comment_length]. rewrite !bool_decide_false by done.
    rewrite (line_comment_length_app comment rest Hnl Hrest). f_equal. lia.
  - rewrite <- Nat.add_assoc, <- drop_drop, drop_app_length.
    exact (drop_app_length comment rest).
Qed.

Lemma line_comment_is_dropped_witness :
  scan_step line_comment_text (mkScan 2 false false None (codes "a "))
  = mkScan 6 false false None (codes "a ")
  ∧ drop 6 line_comment_text = [ch_newline] ++ codes "b".
Proof.
  apply (line_comment_is_dropped line_comment_text (codes "a ") (codes " c")
           ([ch_newline] ++ codes "b") (mkScan 2 false false None (codes "a "))).
  - reflexivity.
  - vm_compute. intros Hin. by repeat (apply elem_of_cons in Hin as [Hin|Hin]; [done|]);
      apply elem_of_nil in Hin.
  - by intros c [= <-].
  - reflexivity.
  - reflexivity.
  - reflexivity.
Defined.

(** ** Strings *)

(** X5: inside a string every character is appended as it is, white space
    and line breaks included, and the index moves by one. *)
Theorem string_content_is_verbatim content st c :
  reachable content st → in_string st = true → content !! i st = Some c →
  buffer (scan_step content st) = buffer st ++ [c]
  ∧ i (scan_step content st) = i st + 1
  ∧ string_char (scan_step content st) = string_char st.
Proof.
  intros Hreach Hins Hc. apply reachable_string_xor_comment in Hreach.
  destruct st as [k mlc ins sc buf]. simpl in Hins, Hc, Hreach. subst ins.
  simpl in Hreach. subst mlc. unfold scan_step. rewrite !andb_false_r, Hc.
  destruct (is_quote c && _); cbn [negb].
  - by destruct (bool_decide (Some c = sc)).
  - by rewrite andb_false_r.
Qed.

Lemma string_content_is_verbatim_witness :
  buffer (scan_step spaced_text (mkScan 8 false true (Some ch_dquote)
                                        (codes "a " ++ [ch_dquote] ++ codes "b")))
  = (codes "a " ++ [ch_dquote] ++ codes "b") ++ [ch_space]
  ∧ i (scan_step spaced_text (mkScan 8 false true (Some ch_dquote)
                                     (codes "a " ++ [ch_dquote] ++ codes "b")))
    = 8 + 1
  ∧ string_char (scan_step spaced_text (mkScan 8 false true (Some ch_dquote)
                                               (codes "a " ++ [ch_dquote] ++ codes "b")))
    = Some ch_dquote.
Proof.
  apply (string_content_is_verbatim spaced_text
           (mkScan 8 false true (Some ch_dquote) (codes "a " ++ [ch_dquote] ++ codes "b"))
           ch_space).
  - apply (scan_steps_rtc 8). by vm_compute.
  - reflexivity.
  - reflexivity.
Defined.

Lemma slice2_head content k a b c :
  slice2 content k = [a; b] → content !! k = Some c → c = a.
Proof. intros [Ha _]%slice2_lookup Hc. congruence. Qed.

(** X6: a quote character that follows a backslash is an ordinary character:
    it is appended, and it neither opens nor closes a string, whatever the
    state outside a block comment. *)
Theorem escaped_quote_is_plain content st c :
  in_multiline_comment st = false →
  content !! i st = Some c → is_quote c = true →
  0 < i st → content !! (i st - 1) = Some ch_backslash →
  scan_step content st
  = mkScan (i st + 1) false (in_string st) (string_char st) (buffer st ++ [c]).
Proof.
  destruct st as [k mlc ins sc buf]. cbn [i in_multiline_comment in_string string_char buffer].
  intros -> Hc Hquote Hk Hprev. unfold scan_step.
  rewrite (bool_decide_false (slice2 content k = [ch_slash; ch_star])); last first.
  { intros Hs. rewrite (slice2_head _ _ _ _ _ Hs Hc) in Hquote. done. }
  rewrite (bool_decide_false (slice2 content k = [ch_slash; ch_slash])); last first.
  { intros Hs. rewrite (slice2_head _ _ _ _ _ Hs Hc) in Hquote. done. }
  rewrite andb_false_r. cbn [andb]. rewrite Hc, Hquote.
  rewrite (bool_decide_false (k = 0)) by lia.
  rewrite (bool_decide_false (content !! (k - 1) ≠ Some ch_backslash)) by (by intros []).
  cbn [andb orb]. by rewrite (is_quote_not_space c Hquote).
Qed.

Lemma escaped_quote_is_plain_witness :
  scan_step escaped_quote_text
            (mkScan 3 false true (Some ch_squote) ([ch_squote] ++ codes "a" ++ [ch_backslash]))
  = mkScan (3 + 1) false true (Some ch_squote)
           (([ch_squote] ++ codes "a" ++ [ch_backslash]) ++ [ch_squote]).
Proof.
  apply (escaped_quote_is_plain escaped_quote_text
           (mkScan 3 false true (Some ch_squote) ([ch_squote] ++ codes "a" ++ [ch_backslash]))
           ch_squote).
  - reflexivity.
  - reflexivity.
  - reflexivity.
  - simpl. lia.
  - reflexivity.
Defined.

Lemma scan_step_delimiter content st :
  (in_string st = true → ∃ q, string_char st = Some q ∧ is_quote q = true) →
  in_string (scan_step content st) = true →
  ∃ q, string_char (scan_step content st) = Some q ∧ is_quote q = true.
Proof.
  destruct st as [k mlc ins sc buf]. cbn [in_string string_char]. unfold scan_step.
  intros Hinv.
  repeat (case_match; cbn [in_string string_char]); try done.
  intros _. eexists. split; [done|]. by destruct (is_quote _) eqn:?.
Qed.

Lemma reachable_delimiter content st :
  reachable content st → in_string st = true →
  ∃ q, string_char st = Some q ∧ is_quote q = true.
Proof.
  unfold reachable. revert st.
  apply (rtc_ind_r (λ st, in_string st = true
                          → ∃ q, string_char st = Some q ∧ is_quote q = true));
    [done|].
  intros mid st' _ [_ ->] IH. by apply scan_step_delimiter.
Qed.

(** X7: in a string the delimiter recorded is one of the three quote
    characters, and an iteration leaves the string exactly when it reads
    that delimiter, neither at index 0 nor after a backslash: the other two
    quote characters and an escaped delimiter do not close it. *)
Theorem string_closed_by_its_delimiter content st c :
  reachable content st → in_string st = true → content !! i st = Some c →
  (∃ q, string_char st = Some q ∧ is_quote q = true)
  ∧ (in_string (scan_step content st) = false
     ↔ string_char st = Some c
       ∧ (i st = 0 ∨ content !! (i st - 1) ≠ Some ch_backslash)).
Proof.
  intros Hreach Hins Hc. split; [by apply (reachable_delimiter content)|].
  destruct (reachable_delimiter content st Hreach Hins) as (q & Hq & Hquote).
  apply reachable_string_xor_comment in Hreach.
  destruct st as [k mlc ins sc buf]. simpl in Hins, Hc, Hreach, Hq. subst ins sc.
  simpl in Hreach. subst mlc. cbn [i string_char]. unfold scan_step.
  rewrite !andb_false_r, Hc. cbn [negb].
  destruct (bool_decide (k = 0)) eqn:Hzero;
    destruct (bool_decide (content !! (k - 1) ≠ Some ch_backslash)) eqn:Hback;
    cbn [orb]; rewrite ?andb_true_r, ?andb_false_r;
    try apply bool_decide_eq_true_1 in Hzero; try apply bool_decide_eq_false_1 in Hzero;
    try apply bool_decide_eq_true_1 in Hback; try apply bool_decide_eq_false_1 in Hback.
  1-3: destruct (is_quote c) eqn:Hcq;
    [ case_bool_decide as Heq; cbn [in_string];
      [ split; [intros _; split; [congruence | tauto] | done]
      | split; [done | intros [? _]; congruence] ]
    | cbn [in_string]; split; [done | intros [[= ->] _]; congruence] ].
  cbn [in_string]. split; [done|]. intros [_ [? | ?]]; [lia | done].
Qed.

Lemma string_closed_by_its_delimiter_witness :
  (∃ q, Some ch_squote = Some q ∧ is_quote q = true)
  ∧ (in_string (scan_step escaped_quote_text
                  (mkScan 5 false true (Some ch_squote)
                          ([ch_squote] ++ codes "a" ++ [ch_backslash; ch_squote] ++ codes "b")))
     = false
     ↔ Some ch_squote = Some ch_squote
       ∧ (5 = 0 ∨ escaped_quote_text !! (5 - 1) ≠ Some ch_backslash)).
Proof.
  apply (string_closed_by_its_delimiter escaped_quote_text
           (mkScan 5 false true (Some ch_squote)
                   ([ch_squote] ++ codes "a" ++ [ch_backslash; ch_squote] ++ codes "b"))
           ch_squote).
  - apply (scan_steps_rtc 5). by vm_compute.
  - reflexivity.
  - reflexivity.
Defined.

(** ** A block comment that is never closed *)

Lemma scan_step_open_comment content k sc buf :
  slice2 content k ≠ [ch_star; ch_slash] →
  ∃ k', scan_step content (mkScan k true false sc buf) = mkScan k' true false sc buf
        ∧ k < k'.
Proof.
  intros Hend. unfold scan_step. rewrite (bool_decide_false _ Hend). cbn [negb andb].
  destruct (bool_decide _ && true).
  - exists (k + 2). split; [done | lia].
  - exists (k + 1). split; [done | lia].
Qed.

Lemma scan_rel_open_comment content start sc buf st st' :
  (∀ k, start ≤ k → slice2 content k ≠ [ch_star; ch_slash]) →
  rtc (scan_rel content) st st' →
  (∃ k, start ≤ k ∧ st = mkScan k true false sc buf) →
  buffer st' = buf.
Proof.
  intros Hend. induction 1 as [st|st mid st' [_ ->] _ IH].
  - by intros (k & _ & ->).
  - intros (k & Hk & ->). apply IH.
    destruct (scan_step_open_comment content k sc buf (Hend k Hk)) as (k' & -> & Hlt).
    exists k'. split; [lia | done].
Qed.

(** X8: a block comment that is opened outside a string and never closed
    takes everything up to the end of the content: what is returned is the
    buffer at the opening marker, stripped. *)
Theorem open_block_comment_drops_the_rest content before body st :
  content = before ++ [ch_slash; ch_star] ++ body →
  (¬ ∃ l1 l2, body = l1 ++ [ch_star; ch_slash] ++ l2) →
  reachable content st → i st = length before → in_string st = false →
  normalize content = Some (strip (buffer st)).
Proof.
  intros Hcontent Hbody Hreach Hi Hins.
  destruct (scan_is_Some content) as [final Hscan].
  unfold normalize. rewrite Hscan. simpl. do 2 f_equal.
  pose proof (reachable_to_final content st final Hreach Hscan) as Hsteps.
  apply scan_loop_rtc in Hscan as [_ Hexit].
  destruct st as [k mlc ins sc buf]. simpl in Hi, Hins. subst k ins. cbn [buffer].
  inversion Hsteps as [Heq|? mid ? [_ Hmid] Hrest]; subst.
  { simpl in Hexit. rewrite !length_app in Hexit. simpl in Hexit. lia. }
  apply (scan_rel_open_comment _ (length before + 2) sc buf _ _) in Hrest; [done| |].
  - intros k Hk [Hstar Hslash]%slice2_lookup. apply Hbody.
    apply (lookup_pair_split body (k - (length before + 2))).
    + rewrite lookup_app_r in Hstar by lia.
      change ([ch_slash; ch_star] ++ body) with (ch_slash :: ch_star :: body) in Hstar.
      destruct (k - length before) as [|[|j]] eqn:Hj; [lia | lia |].
      simpl in Hstar. by replace (k - (length before + 2)) with j by lia.
    + rewrite lookup_app_r in Hslash by lia.
      change ([ch_slash; ch_star] ++ body) with (ch_slash :: ch_star :: body) in Hslash.
      destruct (k + 1 - length before) as [|[|j]] eqn:Hj; [lia | lia |].
      simpl in Hslash. by replace (k - (length before + 2) + 1) with j by lia.
  - exists (length before + 2). split; [lia|].
    unfold scan_step. rewrite bool_decide_true; [done|].
    apply slice2_lookup. rewrite !(lookup_app_r before) by lia.
    by replace (length before + 1 - length before) with 1 by lia; rewrite Nat.sub_diag.
Qed.

Lemma open_block_comment_drops_the_rest_witness :
  normalize open_comment_text = Some (strip (codes "a c ")).
Proof.
  apply (open_block_comment_drops_the_rest open_comment_text (codes "a /* b */c ")
           (codes " d * / e") (mkScan 11 false false None (codes "a c "))).
  - reflexivity.
  - intros Hsub%contains_spec. by vm_compute in Hsub.
  - apply (scan_steps_rtc 9). by vm_compute.
  - reflexivity.
  - reflexivity.
Defined.

(** * Further properties of [process_file_content] *)

Lemma process_file_content_prints_nothing json_compact file content :
  ∃ out, process_file_content json_compact file content = Some ([], out).
Proof.
  unfold process_file_content. case_bool_decide as Hext.
  - destruct (normalize_is_Some content) as [out ->]. by exists out.
  - rewrite bool_decide_false; [by exists content|].
    intros Heq. apply Hext. rewrite Heq. do 2 apply list_elem_of_further.
    apply list_elem_of_here.
Qed.

(** X9: whatever the [json] library does, nothing is printed, and the text
    returned is the scanner's output when the lowered extension is one of
    the three, and the content itself otherwise: the branch that parses
    JSON does not contribute to any result. *)
Theorem process_file_content_never_parses_json json_compact file content :
  ∃ out,
    process_file_content json_compact file content = Some ([], out)
    ∧ (lower (suffix file) ∈ [codes ".dart"; codes ".yaml"; codes ".json"] →
       normalize content = Some out)
    ∧ (lower (suffix file) ∉ [codes ".dart"; codes ".yaml"; codes ".json"] →
       out = content).
Proof.
  unfold process_file_content. case_bool_decide as Hext.
  - destruct (normalize_is_Some content) as [out Hout]. exists out.
    rewrite Hout. by split_and!.
  - rewrite bool_decide_false.
    + exists content. by split_and!.
    + intros Heq. apply Hext. rewrite Heq. do 2 apply list_elem_of_further.
      apply list_elem_of_here.
Qed.

(** X10: the file matters through its lowered extension only, so that
    capitals in the extension, the name and the directories make no
    difference to what is returned and printed. *)
Theorem process_file_content_by_extension json_compact file1 file2 content :
  lower (suffix file1) = lower (suffix file2) →
  process_file_content json_compact file1 content
  = process_file_content json_compact file2 content.
Proof.
  intros Hext. unfold process_file_content. rewrite <- Hext.
  case_bool_decide as Hin; [done|].
  rewrite bool_decide_false; [done|].
  intros Heq. apply Hin. rewrite Heq. do 2 apply list_elem_of_further.
  apply list_elem_of_here.
Qed.

Lemma process_file_content_by_extension_witness :
  process_file_content sample_json_compact main_dart_upper spaced_text
  = process_file_content sample_json_compact a_dart spaced_text.
Proof.
  apply (process_file_content_by_extension sample_json_compact main_dart_upper a_dart).
  reflexivity.
Defined.

(** * Further properties of the selection *)

(** ** The order of paths *)

Lemma text_compare_eq s t : text_compare s t = Eq ↔ s = t.
Proof.
  revert t. induction s as [|a s IH]; intros [|b t]; simpl; try done.
  destruct (N.compare_spec a b) as [->|Hlt|Hgt].
  - rewrite IH. split; [by intros -> | by intros [= ->]].
  - split; [done | intros [= -> _]; lia].
  - split; [done | intros [= -> _]; lia].
Qed.

Lemma text_compare_antisym s t : text_compare t s = CompOpp (text_compare s t).
Proof.
  revert t. induction s as [|a s IH]; intros [|b t]; simpl; try done.
  rewrite (N.compare_antisym a b). destruct (a ?= b)%N; simpl; [apply IH | done | done].
Qed.

Lemma text_compare_lt_trans s t u :
  text_compare s t = Lt → text_compare t u = Lt → text_compare s u = Lt.
Proof.
  revert t u. induction s as [|a s IH]; intros [|b t] [|c u]; simpl; try done.
  destruct (N.compare_spec a b) as [->|Hab|Hab]; [| |done].
  - destruct (N.compare_spec b c) as [->|Hbc|Hbc]; [apply IH | done | done].
  - destruct (N.compare_spec b c) as [->|Hbc|Hbc]; [| |done]; intros _ _.
    + by rewrite (proj2 (N.compare_lt_iff a c)).
    + rewrite (proj2 (N.compare_lt_iff a c)); [done | lia].
Qed.

Lemma parts_compare_antisym p q : parts_compare q p = CompOpp (parts_compare p q).
Proof.
  revert q. induction p as [|a p IH]; intros [|b q]; simpl; try done.
  rewrite (text_compare_antisym a b).
  destruct (text_compare a b); simpl; [apply IH | done | done].
Qed.

Lemma parts_compare_le_trans p q r :
  parts_compare p q ≠ Gt → parts_compare q r ≠ Gt → parts_compare p r ≠ Gt.
Proof.
  revert q r. induction p as [|a p IH]; intros [|b q] [|c r]; simpl; try done.
  destruct (text_compare a b) eqn:Hab; [| |done].
  - apply text_compare_eq in Hab as ->.
    destruct (text_compare b c); [apply IH | done | done].
  - destruct (text_compare b c) eqn:Hbc; [| |done]; intros _ _.
    + apply text_compare_eq in Hbc as <-. by rewrite Hab.
    + by rewrite (text_compare_lt_trans a b c Hab Hbc).
Qed.

Lemma path_le_total : Total path_le.
Proof.
  intros p q. unfold path_le.
  rewrite (parts_compare_antisym (sort_key p) (sort_key q)).
  destruct (parts_compare (sort_key p) (sort_key q)); simpl; [by left | by left | by right].
Qed.

Lemma path_le_trans : Transitive path_le.
Proof. intros p q r. unfold path_le. apply parts_compare_le_trans. Qed.

Lemma StronglySorted_filter {A} (R : relation A) (P : A → Prop)
    `{∀ x, Decision (P x)} (l : list A) :
  StronglySorted R l → StronglySorted R (filter P l).
Proof.
  induction 1 as [|x l _ IH Hall]; [constructor|].
  rewrite filter_cons. destruct (decide (P x)); [|done].
  constructor; [done|]. apply Forall_forall. intros y [_ Hy]%list_elem_of_filter.
  by apply (proj1 (Forall_forall _ _) Hall).
Qed.

(** X11: the files are aggregated in ascending order of their paths, each
    before all those that come later, and no file twice, however many
    include patterns match it. *)
Theorem aggregated_files_sorted_without_duplicates
    glob_parts includes excludes script_path output_path substrings :
  StronglySorted path_le
    (aggregated_files glob_parts includes excludes script_path output_path substrings)
  ∧ NoDup (aggregated_files glob_parts includes excludes script_path output_path
             substrings).
Proof.
  unfold aggregated_files, sorted. split.
  - apply StronglySorted_filter.
    apply (@StronglySorted_merge_sort _ path_le _ path_le_trans path_le_total).
  - apply NoDup_filter. rewrite merge_sort_Permutation. apply NoDup_elements.
Qed.

(** ** Completeness of the selection *)

(** X12: in a run of [main], where the two paths discarded are resolved
    ones, a file that an include glob yields is aggregated as soon as no
    exclude glob yields it and its string form holds no excluded
    substring: the selection drops nothing else. *)
Theorem eligible_file_is_aggregated
    glob_parts includes excludes cwd script_file output_file substrings pattern file :
  pattern ∈ includes → file ∈ glob glob_parts pattern →
  (∀ excluded, excluded ∈ excludes → file ∉ glob glob_parts excluded) →
  name_excluded substrings file = false →
  file ∈ aggregated_files glob_parts includes excludes
           (resolve cwd script_file) (resolve cwd output_file) substrings.
Proof.
  intros Hpattern Hglob Hexcl Hname. unfold aggregated_files.
  rewrite discards_remove_nothing.
  apply list_elem_of_filter. split; [done|].
  apply elem_of_sorted, elem_of_matching_files. split; [|by exists pattern].
  intros (excluded & Hin & Hfile)%elem_of_excluded_files. by apply (Hexcl excluded).
Qed.

Lemma eligible_file_is_aggregated_witness :
  a_dart ∈ aggregated_files sample_glob_parts include_patterns exclude_patterns
             (resolve sample_cwd sample_script) (resolve sample_cwd out_json)
             (EXCLUDED_DIRS ++ EXCLUDED_FILES).
Proof.
  apply (eligible_file_is_aggregated sample_glob_parts include_patterns exclude_patterns
           sample_cwd sample_script out_json (EXCLUDED_DIRS ++ EXCLUDED_FILES)
           (codes "**/*.dart") a_dart).
  - vm_compute. apply list_elem_of_here.
  - vm_compute. apply list_elem_of_here.
  - intros excluded Hexcl Hin. unfold glob, sample_glob_parts in Hin.
    repeat case_bool_decide; subst; vm_compute in Hin, Hexcl.
    + apply elem_of_cons in Hin as [Hin|Hin]; [done | by apply elem_of_nil in Hin].
    + repeat (apply elem_of_cons in Hexcl as [Hexcl|Hexcl]; [done|]).
      by apply elem_of_nil in Hexcl.
    + apply elem_of_cons in Hin as [Hin|Hin]; [done | by apply elem_of_nil in Hin].
    + by apply elem_of_nil in Hin.
  - by vm_compute.
Defined.

(** * The document in closed form *)

Section DocumentLayout.
Context (json_compact : text → option text) (read_text : Path → text + text).
Context (substrings : list text).

Lemma aggregate_closed_form files st :
  aggregate json_compact read_text substrings files st
  = Some (mkOutput
            (outfile st
             ++ concat (file_block json_compact read_text
                        <$> filter (λ f, name_excluded substrings f = false) files))
            (console st
             ++ concat (file_lines read_text
                        <$> filter (λ f, name_excluded substrings f = false) files))
            (processed_count st
             + length (filter (λ f, is_read read_text substrings f = true) files))).
Proof.
  revert st. induction files as [|file rest IH]; intros st.
  { simpl. rewrite !app_nil_r, Nat.add_0_r. by destruct st. }
  cbn [aggregate]. unfold aggregate_file.
  assert (name_excluded substrings file = true ∨ name_excluded substrings file = false)
    as [Hname|Hname] by (destruct (name_excluded substrings file); auto).
  { rewrite (filter_cons_False (λ f, name_excluded substrings f = false))
      by (by rewrite Hname).
    rewrite (filter_cons_False (λ f, is_read read_text substrings f = true))
      by (unfold is_read; by rewrite Hname).
    rewrite Hname, option_bind_Some_l. apply IH. }
  rewrite (filter_cons_True (λ f, name_excluded substrings f = false)) by done.
  rewrite Hname. cbn [fmap list_fmap concat].
  unfold file_block at 1, file_lines at 1.
  destruct (read_text file) as [e|content] eqn:Hread.
  - rewrite (filter_cons_False (λ f, is_read read_text substrings f = true))
      by (unfold is_read; by rewrite Hname, Hread).
    rewrite option_bind_Some_l, IH.
    cbn [outfile console processed_count]. rewrite app_nil_r.
    by rewrite <- !app_assoc.
  - rewrite (filter_cons_True (λ f, is_read read_text substrings f = true))
      by (unfold is_read; by rewrite Hname, Hread).
    destruct (process_file_content_prints_nothing json_compact file content)
      as (out & ->).
    cbn [mbind option_bind]. rewrite IH.
    cbn [outfile console processed_count length]. rewrite app_nil_r.
    do 2 f_equal; [by rewrite <- !app_assoc | by rewrite <- !app_assoc | lia].
Qed.
End DocumentLayout.

(** X13: the document is the tree section, the opening line of the
    container, the blocks of the files not skipped by name, in the order
    of the loop, and the closing line; a block is a header followed by the
    processed content, or by nothing when the read fails.  The lines
    printed are one announcement per block, followed by the error when
    the read fails, and the count is the number of files read. *)
Theorem document_layout json_compact read_text substrings tree_output files :
  combined_document json_compact read_text substrings tree_output files
  = Some (mkOutput
            (codes "<project-tree>" ++ [ch_newline] ++ tree_output ++ [ch_newline]
             ++ codes "</project-tree>" ++ [ch_newline]
             ++ codes "<codebase>" ++ [ch_newline]
             ++ concat (file_block json_compact read_text
                        <$> filter (λ f, name_excluded substrings f = false) files)
             ++ [ch_newline] ++ codes "</codebase>")
            (concat (file_lines read_text
                     <$> filter (λ f, name_excluded substrings f = false) files))
            (length (filter (λ f, is_read read_text substrings f = true) files))).
Proof.
  unfold combined_document. rewrite aggregate_closed_form.
  cbn [mbind option_bind outfile console processed_count Nat.add].
  do 2 f_equal. by rewrite <- !app_assoc.
Qed.

(** * Post-processing *)




Section PostProcessing.
Context (cwd : list text) (glob_parts : text → list (list text)).
Context (json_compact : text → option text) (read_text : Path → text + text).
Context (tree_output : text) (script_file output_file : Path).

Local Abbreviation the_document :=
  (main_document cwd glob_parts json_compact read_text tree_output script_file output_file).
Local Abbreviation the_run :=
  (main_run cwd glob_parts json_compact read_text tree_output script_file output_file).


End PostProcessing.



(** * The run on a given system *)

(** On the system without symbolic links where every operation succeeds,
    the run is the one above. *)
Lemma main_on_ideal_system cwd glob_parts json_compact read_text tree_output
    script_file output_file fs :
  main (ideal_system cwd) glob_parts json_compact read_text tree_output
       script_file output_file fs
  = main_run cwd glob_parts json_compact read_text tree_output script_file output_file fs.
Proof.
  unfold main, main_run, main_document_on, main_document. cbn [ideal_system realpath can_write].
  destruct (combined_document _ _ _ _ _) as [document|]; [|done].
  cbn [mbind option_bind]. unfold post_process_on, post_process.
  cbn [ideal_system realpath can_write can_read can_unlink].
  by repeat case_match.
Qed.

Section MainOnSystem.
Context (os : System) (glob_parts : text → list (list text)).
Context (json_compact : text → option text) (read_text : Path → text + text).
Context (tree_output : text) (script_file output_file : Path).

Local Abbreviation written_document :=
  (main_document_on os glob_parts json_compact read_text tree_output
                    script_file output_file).
Local Abbreviation run_main :=
  (main os glob_parts json_compact read_text tree_output script_file output_file).

Lemma main_document_on_is_Some : is_Some written_document.
Proof.
  unfold main_document_on, combined_document.
  destruct (aggregate_is_Some json_compact read_text (EXCLUDED_DIRS ++ EXCLUDED_FILES)
              (sorted (selected_files glob_parts include_patterns exclude_patterns
                         (realpath os script_file) (realpath os output_file)))
              (mkOutput (codes "<project-tree>" ++ [ch_newline] ++ tree_output
                         ++ [ch_newline] ++ codes "</project-tree>" ++ [ch_newline]
                         ++ codes "<codebase>" ++ [ch_newline]) [] 0))
    as [st ->].
  simpl. eauto.
Qed.

(** X14: when the output file can be opened for writing, is not the
    template, and no template file exists, the run ends with status 1
    after the document is written: the document stays at the output path,
    no rules file is written, and no other file is touched. *)
Theorem missing_template_leaves_the_document (fs : gmap Path (list N)) :
  can_write os (realpath os output_file) = true →
  fs !! realpath os template_path = None →
  realpath os output_file ≠ realpath os template_path →
  ∃ document,
    written_document = Some document
    ∧ run_main fs = Some (1, <[realpath os output_file := outfile document]> fs).
Proof.
  intros Hwrite Htemplate Hne.
  destruct main_document_on_is_Some as [document Hdoc].
  exists document. split; [done|]. unfold main. rewrite Hwrite, Hdoc. simpl.
  unfold post_process_on. rewrite lookup_insert_eq.
  rewrite lookup_insert_ne by done. rewrite Htemplate.
  by destruct (can_read os (realpath os output_file)).
Qed.

(** X15: when the output file is neither the template nor the rules file,
    the template exists, and the four opens and the unlink succeed, the
    run ends with status 0: the rules file holds the template with the
    document in place of each placeholder, the output file is gone, and
    every file other than these two is as it was. *)
Theorem template_is_merged (fs : gmap Path (list N)) template_content :
  can_write os (realpath os output_file) = true →
  can_read os (realpath os output_file) = true →
  fs !! realpath os template_path = Some template_content →
  can_read os (realpath os template_path) = true →
  can_write os (realpath os rules_path) = true →
  can_unlink os (realpath os output_file) = true →
  realpath os output_file ≠ realpath os template_path →
  realpath os output_file ≠ realpath os rules_path →
  ∃ document fs',
    written_document = Some document
    ∧ run_main fs = Some (0, fs')
    ∧ fs' !! realpath os rules_path = Some (merge template_content (outfile document))
    ∧ fs' !! realpath os output_file = None
    ∧ ∀ file, file ≠ realpath os rules_path → file ≠ realpath os output_file →
              fs' !! file = fs !! file.
Proof.
  intros Hwrite Hread Htemplate Hread_template Hwrite_rules Hunlink Hne_template Hne_rules.
  destruct main_document_on_is_Some as [document Hdoc].
  exists document. eexists. split; [done|]. unfold main. rewrite Hwrite, Hdoc. simpl.
  unfold post_process_on. rewrite lookup_insert_eq, Hread.
  rewrite lookup_insert_ne by done. rewrite Htemplate, Hread_template, Hwrite_rules, Hunlink.
  split; [reflexivity|]. split_and!.
  - rewrite lookup_delete_ne by done. by rewrite lookup_insert_eq.
  - by rewrite lookup_delete_eq.
  - intros file Hrules Hout. rewrite lookup_delete_ne by done.
    by rewrite !lookup_insert_ne by done.
Qed.
End MainOnSystem.

Lemma missing_template_leaves_the_document_witness :
  ∃ document,
    main_document_on (ideal_system sample_cwd) sample_glob_parts sample_json_compact
                     sample_read (codes ".") sample_script combined_output
    = Some document
    ∧ main (ideal_system sample_cwd) sample_glob_parts sample_json_compact sample_read
           (codes ".") sample_script combined_output ∅
      = Some (1, <[resolve sample_cwd combined_output := outfile document]> ∅).
Proof.
  apply (missing_template_leaves_the_document (ideal_system sample_cwd) sample_glob_parts
           sample_json_compact sample_read (codes ".") sample_script combined_output ∅).
  - reflexivity.
  - apply lookup_empty.
  - intros Heq. by vm_compute in Heq.
Defined.

Lemma template_is_merged_witness :
  ∃ document fs',
    main_document_on (ideal_system sample_cwd) sample_glob_parts sample_json_compact
                     sample_read (codes ".") sample_script combined_output
    = Some document
    ∧ main (ideal_system sample_cwd) sample_glob_parts sample_json_compact sample_read
           (codes ".") sample_script combined_output sample_files
      = Some (0, fs')
    ∧ fs' !! resolve sample_cwd rules_path
      = Some (merge sample_template (outfile document))
    ∧ fs' !! resolve sample_cwd combined_output = None
    ∧ ∀ file, file ≠ resolve sample_cwd rules_path →
              file ≠ resolve sample_cwd combined_output →
              fs' !! file = sample_files !! file.
Proof.
  apply (template_is_merged (ideal_system sample_cwd) sample_glob_parts
           sample_json_compact sample_read (codes ".") sample_script combined_output
           sample_files sample_template).
  - reflexivity.
  - reflexivity.
  - apply lookup_singleton_eq.
  - reflexivity.
  - reflexivity.
  - reflexivity.
  - intros Heq. by vm_compute in Heq.
  - intros Heq. by vm_compute in Heq.
Defined.
